(** * toad.settings: schema-backed settings

    A shallow embedding of [src/toad/settings.py] and of the schema data of
    [src/toad/settings_schema.py], followed by the properties of the
    specification that were checked against it.

    Python values are modelled by the inductive type [pyobj]; a Python
    [dict] with string keys is an association list that keeps insertion
    order, as Python dictionaries do; exceptions are values of [exn];
    a function that mutates its argument returns the new state next to
    its outcome. *)

From Stdlib Require Import String Ascii List ZArith Bool Arith Lia.
Import ListNotations.
Open Scope string_scope.
Open Scope list_scope.

Set Implicit Arguments.
Set Warnings "-register-all".

(* ================================================================== *)
(** ** Python objects *)

(** A [dict] whose keys are strings.  The head of the list is the oldest
    entry, the order of the list is the iteration order. *)
Definition dict (V : Type) : Type := list (string * V).

Inductive pyobj : Type :=
| PNone
| PBool (b : bool)
| PInt (z : Z)
| PStr (s : string)
| PList (l : list pyobj)
| PDict (d : dict pyobj).

(** The classes that [isinstance] is asked about. *)
Inductive pytype : Type :=
| Tobject | Tbool | Tint | Tstr | Tlist | Tdict | TNoneType.

(** [isinstance(o, T)]; [bool] is a subclass of [int]. *)
Definition isinstance (o : pyobj) (T : pytype) : bool :=
  match T, o with
  | Tobject, _ => true
  | Tbool, PBool _ => true
  | Tint, PInt _ => true
  | Tint, PBool _ => true
  | Tstr, PStr _ => true
  | Tlist, PList _ => true
  | Tdict, PDict _ => true
  | TNoneType, PNone => true
  | _, _ => false
  end.

(** [o is None] *)
Definition is_None (o : pyobj) : bool :=
  match o with PNone => true | _ => false end.

(** [key == o] for a [str] on the left: equal only to an equal [str]. *)
Definition str_eq (key : string) (o : pyobj) : bool :=
  match o with PStr s => String.eqb key s | _ => false end.

(** [key in l] for a Python list [l]: some element compares equal. *)
Definition list_contains (key : string) (l : list pyobj) : bool :=
  existsb (str_eq key) l.

Inductive exn : Type :=
| KeyError (arg : string)
| InvalidKey
| InvalidValue (expect_type : pytype) (found : pyobj)
| AssertionError
| TypeError.

(** How the body of a [for] loop over a sequence ends: the sequence is
    exhausted ([Normal]), a [return] is executed, or an exception
    propagates. *)
Inductive completion (A : Type) : Type :=
| Normal
| Return (v : A)
| Raise (e : exn).
Arguments Normal {A}.
Arguments Return {A} v.
Arguments Raise {A} e.

(** What a call produces. *)
Inductive result (A : Type) : Type :=
| Returns (v : A)
| Raises (e : exn).
Arguments Returns {A} v.
Arguments Raises {A} e.

Section Dict.
Variable V : Type.

(** [d[key]], [None] standing for the [KeyError]. *)
Fixpoint getitem (d : dict V) (key : string) : option V :=
  match d with
  | [] => None
  | (k, v) :: d' => if String.eqb k key then Some v else getitem d' key
  end.

(** [d[key] = v]: an existing entry keeps its place, a new one goes last. *)
Fixpoint setitem (key : string) (v : V) (d : dict V) : dict V :=
  match d with
  | [] => [(key, v)]
  | (k, w) :: d' =>
      if String.eqb k key then (k, v) :: d' else (k, w) :: setitem key v d'
  end.

(** [d.values()] *)
Definition values (d : dict V) : list V := map snd d.

(** [d.keys()] *)
Definition dict_keys (d : dict V) : list string := map fst d.
End Dict.

(* ================================================================== *)
(** ** Keys *)

(** [s.split(sep)] for a one-character separator: never the empty list. *)
Fixpoint split (sep : ascii) (s : string) : list string :=
  match s with
  | EmptyString => [EmptyString]
  | String c s' =>
      if Ascii.eqb c sep then EmptyString :: split sep s'
      else match split sep s' with
           | [] => [String c EmptyString]
           | w :: ws => String c w :: ws
           end
  end.

Definition parse_key (key : string) : list string := split "." key.

(** Modelled from the spec: [toad._loop.loop_last] is imported by
    [settings.py] and is not among the sources.  The specification has
    [get_setting] "walk all but the last" segment and treat "the final
    segment" apart, so [loop_last] pairs every element with a flag that
    is [true] on the last element only, and yields nothing for an empty
    sequence. *)
Fixpoint loop_last (A : Type) (xs : list A) : list (bool * A) :=
  match xs with
  | [] => []
  | [x] => [(true, x)]
  | x :: (_ :: _) as xs' => (false, x) :: loop_last xs'
  end.

(* ================================================================== *)
(** ** [get_setting] *)

(** The [for] loop of [get_setting]; [settings] is the local variable that
    the loop rebinds to the nested mapping. *)
Fixpoint get_setting_loop (items : list (bool * string))
    (settings : dict pyobj) (expect_type : pytype) : completion pyobj :=
  match items with
  | [] => Normal
  | (last, key_component) :: items' =>
      if last then
        match getitem settings key_component with
        | None => Raise (KeyError key_component)
        | Some result =>
            if negb (isinstance result expect_type)
            then Raise (InvalidValue expect_type result)
            else Return result
        end
      else
        match getitem settings key_component with
        | None => Raise (KeyError key_component)
        | Some (PDict sub_settings) =>
            get_setting_loop items' sub_settings expect_type
        | Some _ => Raise AssertionError
        end
  end.

Definition get_setting (settings : dict pyobj) (key : string)
    (expect_type : pytype) : result pyobj :=
  match get_setting_loop (loop_last (parse_key key)) settings expect_type with
  | Return v => Returns v
  | Raise e => Raises e
  | Normal => Raises (KeyError key)
  end.

(* ================================================================== *)
(** ** Schema definitions and compiled settings *)

(** [SchemaDict]: one descriptor of the schema definition.  The three
    required entries are plain fields, an optional entry is [None] when
    the descriptor has no such key. *)
Module SchemaDict.
Inductive t : Type := mk {
  key : string;
  title : string;
  type : string;
  help : option string;
  default : option pyobj;
  fields : option (list t);
  validate : option (list pyobj)
}.

(** [sub_schema.get("fields")] taken as a condition and then iterated:
    a missing entry and an empty list are both false. *)
Definition get_fields (d : t) : list t :=
  match fields d with Some l => l | None => [] end.

Definition option_items (A : Type) (k : string) (f : A -> pyobj)
    (o : option A) : dict pyobj :=
  match o with Some a => [(k, f a)] | None => [] end.

(** The descriptor as the Python object it is, a [dict]. *)
Fixpoint as_object (d : t) : pyobj :=
  PDict ([("key", PStr (key d)); ("title", PStr (title d));
          ("type", PStr (type d))]
         ++ option_items "help" PStr (help d)
         ++ option_items "default" (fun v => v) (default d)
         ++ match fields d with
            | Some l => [("fields", PList (map as_object l))]
            | None => []
            end
         ++ option_items "validate" PList (validate d)).
End SchemaDict.

(** [Setting]: a compiled node.  [default] is [None] unless given. *)
Module Setting.
Inductive t : Type := mk {
  key : string;
  title : string;
  type : string;
  help : string;
  default : pyobj;
  validate : option (list pyobj);
  children : option (dict t)
}.
End Setting.

(** Truth value of [setting.children]: a non-empty [dict]. *)
Definition truthy_children (c : option (dict Setting.t)) : bool :=
  match c with
  | Some (_ :: _) => true
  | _ => false
  end.

Module Schema.

(** *** [set_value]

    One pass of the loop body on the cursor [settings].  [schema] is
    the list handed to the constructor, so [key not in schema] is list
    membership, and [schema[key]] with a [str] index on a list is a
    [TypeError]: whichever way the test goes, the pass ends in an
    exception, and the two statements below [schema = schema[key]] are
    not reached. *)
Definition set_value_body (schema : list SchemaDict.t)
    (settings : dict pyobj) (last : bool) (key : string) (value : pyobj)
    : dict pyobj * completion unit :=
  let settings := if last then setitem key value settings else settings in
  if negb (list_contains key (map SchemaDict.as_object schema))
  then (settings, Raise InvalidKey)
  else (settings, Raise TypeError).

(** The [for] loop: every pass ends in an exception, so the loop never
    starts a second pass; over no items at all it would end normally. *)
Definition set_value_loop (schema : list SchemaDict.t)
    (items : list (bool * string)) (settings : dict pyobj) (value : pyobj)
    : dict pyobj * completion unit :=
  match items with
  | [] => (settings, Normal)
  | (last, key) :: _ => set_value_body schema settings last key value
  end.

(** [set_value(settings, key, value)]: the values tree after the call,
    and [Returns tt] for a call that returns [None]. *)
Definition set_value (schema : list SchemaDict.t) (settings : dict pyobj)
    (key : string) (value : pyobj) : dict pyobj * result unit :=
  match set_value_loop schema (loop_last (parse_key key)) settings value with
  | (settings', Raise e) => (settings', Raises e)
  | (settings', _) => (settings', Returns tt)
  end.

(** *** [defaults]

    [set_default] is one pass of the loop of the inner function
    [set_defaults], and its local [fix] is [set_defaults] on the
    [fields] of the descriptor, started on the fresh [{}] that was just
    stored under [key]. *)
Fixpoint set_default (sub_schema : SchemaDict.t) (settings : dict pyobj)
    {struct sub_schema} : dict pyobj :=
  let key := SchemaDict.key sub_schema in
  if String.eqb (SchemaDict.type sub_schema) "object" then
    match SchemaDict.fields sub_schema with
    | Some ((_ :: _) as fields) =>
        setitem key
          (PDict ((fix set_defaults (schema : list SchemaDict.t)
                       (sub_settings : dict pyobj) : dict pyobj :=
                     match schema with
                     | [] => sub_settings
                     | s :: schema' =>
                         set_defaults schema' (set_default s sub_settings)
                     end) fields []))
          settings
    | _ => settings
    end
  else
    match SchemaDict.default sub_schema with
    | Some default =>
        if negb (is_None default) then setitem key default settings
        else settings
    | None => settings
    end.

Fixpoint set_defaults (schema : list SchemaDict.t) (settings : dict pyobj)
    : dict pyobj :=
  match schema with
  | [] => settings
  | s :: schema' => set_defaults schema' (set_default s settings)
  end.

Definition defaults (schema : list SchemaDict.t) : dict pyobj :=
  set_defaults schema [].

(** *** [settings_map]

    The local [fix] of [build_settings] is the dict comprehension over
    [schema.get("fields", [])]; without a [fields] entry it runs over
    the empty list and [children] is the empty [dict]. *)
Fixpoint build_settings (name : string) (schema : SchemaDict.t)
    {struct schema} : Setting.t :=
  let help :=
    match SchemaDict.help schema with Some h => h | None => "" end in
  let default :=
    match SchemaDict.default schema with Some v => v | None => PNone end in
  if String.eqb (SchemaDict.type schema) "object" then
    Setting.mk name (SchemaDict.title schema) (SchemaDict.type schema)
      help default (SchemaDict.validate schema)
      (match SchemaDict.fields schema with
       | Some fields =>
           Some ((fix comprehension (fields : list SchemaDict.t)
                      (acc : dict Setting.t) : dict Setting.t :=
                    match fields with
                    | [] => acc
                    | f :: fields' =>
                        comprehension fields'
                          (setitem (SchemaDict.key f)
                             (build_settings
                                (name ++ "." ++ SchemaDict.key f) f)
                             acc)
                    end) fields [])
       | None => Some []
       end)
  else
    Setting.mk name (SchemaDict.title schema) (SchemaDict.type schema)
      help default (SchemaDict.validate schema) None.

Fixpoint settings_map_loop (schema : list SchemaDict.t)
    (form_settings : dict Setting.t) : dict Setting.t :=
  match schema with
  | [] => form_settings
  | sub_schema :: schema' =>
      settings_map_loop schema'
        (setitem (SchemaDict.key sub_schema)
           (build_settings (SchemaDict.key sub_schema) sub_schema)
           form_settings)
  end.

Definition settings_map (schema : list SchemaDict.t) : dict Setting.t :=
  settings_map_loop schema [].

(** *** [keys] *)
Fixpoint get_keys (setting : Setting.t) : list string :=
  if String.eqb (Setting.type setting) "object"
     && truthy_children (Setting.children setting)
  then
    match Setting.children setting with
    | Some children =>
        (fix each (cs : dict Setting.t) : list string :=
           match cs with
           | [] => []
           | (_, child) :: cs' => get_keys child ++ each cs'
           end) children
    | None => []
    end
  else [Setting.key setting].

Definition keys (schema : list SchemaDict.t) : list string :=
  flat_map get_keys (values (settings_map schema)).

End Schema.

(* ================================================================== *)
(** ** Environment variables *)

(** The process environment, [os.environ]. *)
Definition environ_t : Type := string -> option string.

(** [os.path.expandvars] is the standard library's (posixpath): a single
    scan from left to right for the pattern [\$(\w+|\{[^}]*\})] with
    ASCII word characters; a reference whose name is set is replaced by
    its value, which is not scanned again, and any other text is kept. *)
Definition is_word_char (c : ascii) : bool :=
  let n := nat_of_ascii c in
  (Nat.leb 48 n && Nat.leb n 57) || (Nat.leb 65 n && Nat.leb n 90)
  || (Nat.leb 97 n && Nat.leb n 122) || Nat.eqb n 95.

(** The longest run of word characters at the head of [s], and the rest. *)
Fixpoint span_word (s : string) : string * string :=
  match s with
  | EmptyString => (EmptyString, EmptyString)
  | String c s' =>
      if is_word_char c
      then let (w, rest) := span_word s' in (String c w, rest)
      else (EmptyString, s)
  end.

(** The text up to the first closing brace, and the text after it. *)
Fixpoint until_brace (s : string) : option (string * string) :=
  match s with
  | EmptyString => None
  | String c s' =>
      if Ascii.eqb c "}" then Some (EmptyString, s')
      else match until_brace s' with
           | Some (body, rest) => Some (String c body, rest)
           | None => None
           end
  end.

(** A reference right after a dollar sign: the variable's name and the
    number of characters of the reference (the dollar sign not counted). *)
Definition match_var (s : string) : option (string * nat) :=
  match span_word s with
  | (String c w, _) => Some (String c w, String.length (String c w))
  | (EmptyString, _) =>
      match s with
      | String "{" s' =>
          match until_brace s' with
          | Some (body, _) => Some (body, 2 + String.length body)
          | None => None
          end
      | _ => None
      end
  end.

(** [skip] counts the characters of a reference that was just handled. *)
Fixpoint expandvars_from (environ : environ_t) (skip : nat) (path : string)
    : string :=
  match path with
  | EmptyString => EmptyString
  | String c rest =>
      match skip with
      | S skip' =>
          expandvars_from environ skip' rest
      | O =>
          if Ascii.eqb c "$" then
            match match_var rest with
            | Some (name, len) =>
                match environ name with
                | Some value => value ++ expandvars_from environ len rest
                | None =>
                    String c (substring 0 len rest)
                    ++ expandvars_from environ len rest
                end
            | None => String c (expandvars_from environ 0 rest)
            end
          else String c (expandvars_from environ 0 rest)
      end
  end.

Definition expandvars (environ : environ_t) (path : string) : string :=
  expandvars_from environ 0 path.

(* ================================================================== *)
(** ** [Settings] *)

Module Settings.
Record t : Type := mk {
  _schema : list SchemaDict.t;
  _settings : dict pyobj
}.

(** [get(key, expect_type)], read under the environment of the call. *)
Definition get (environ : environ_t) (self : t) (key : string)
    (expect_type : pytype) : result pyobj :=
  match get_setting (_settings self) key expect_type with
  | Returns (PStr setting) => Returns (PStr (expandvars environ setting))
  | other => other
  end.
End Settings.

(* ================================================================== *)
(** ** [cached_property]

    [keys] and [settings_map] are [functools.cached_property] attributes:
    the first access calls the decorated function and stores what it
    returned in the instance's [__dict__]; a later access returns the
    stored object.  An object with an identity is a value paired with the
    address it was allocated at; the heap is represented by its next free
    address, so that a computation that builds a new object is visible. *)

Record ref (A : Type) : Type := mkref { address : nat; deref : A }.

Module SchemaInstance.
Record t : Type := mk {
  schema : list SchemaDict.t;
  dict_keys : option (ref (list string));
  dict_settings_map : option (ref (dict Setting.t))
}.

(** [Schema(schema)]: nothing is cached yet. *)
Definition init (schema : list SchemaDict.t) : t := mk schema None None.

(** [self.settings_map] *)
Definition settings_map (self : t) (heap : nat)
    : ref (dict Setting.t) * t * nat :=
  match dict_settings_map self with
  | Some val => (val, self, heap)
  | None =>
      let val := mkref heap (Schema.settings_map (schema self)) in
      (val, mk (schema self) (dict_keys self) (Some val), S heap)
  end.

(** [self.keys], whose function reads [self.settings_map]. *)
Definition keys (self : t) (heap : nat) : ref (list string) * t * nat :=
  match dict_keys self with
  | Some val => (val, self, heap)
  | None =>
      let '(m, self1, heap1) := settings_map self heap in
      let val := mkref heap1 (flat_map Schema.get_keys (values (deref m))) in
      (val, mk (schema self1) (Some val) (dict_settings_map self1), S heap1)
  end.
End SchemaInstance.

(* ================================================================== *)
(** ** The schema of [settings_schema.py] *)

Definition leaf (key title : string) (help : option string) (type : string)
    (default : pyobj) (validate : option (list pyobj)) : SchemaDict.t :=
  SchemaDict.mk key title type help (Some default) None validate.

Definition group (key title help : string) (fields : list SchemaDict.t)
    : SchemaDict.t :=
  SchemaDict.mk key title "object" (Some help) None (Some fields) None.

Definition ui_column : SchemaDict.t :=
  leaf "column" "Enable column?"
    (Some "Enable for a fixed column size. Disable to use the full screen width.")
    "boolean" (PBool true) None.

Definition ui_column_width : SchemaDict.t :=
  leaf "column-width" "Width of the column"
    (Some "Width of the column if enabled.")
    "integer" (PInt 100)
    (Some [PDict [("type", PStr "minimum"); ("value", PInt 40)]]).

Definition ui_theme : SchemaDict.t :=
  leaf "theme" "Theme" (Some "One of the builtin Textual themes.")
    "choices" (PStr "dracula")
    (Some [PDict [("type", PStr "choices");
                  ("choices",
                   PList [PStr "textual-dark"; PStr "textual-light";
                          PStr "nord"; PStr "gruvbox";
                          PStr "catppuccin-mocha"; PStr "dracula";
                          PStr "tokyo-night"; PStr "monokai";
                          PStr "flexoki"; PStr "catppuccin-late";
                          PStr "solarized-light"])]]).

Definition SCHEMA : list SchemaDict.t :=
  [ group "ui" "User interface settings"
      "The following settings allow you to customize the look and feel of the User Interface."
      [ui_column; ui_column_width; ui_theme];
    group "user" "User information" "Your details."
      [ leaf "name" "Your name" None "string" (PStr "$USER") None;
        leaf "email" "Your email" None "string" (PStr "")
          (Some [PDict [("type", PStr "is_email")]]) ];
    group "accounts" "User accounts" "Account details here"
      [ group "anthropic" "Anthropic account"
          "Instructions how to get an API Key"
          [ leaf "apikey" "API Key" (Some "Your API Key goes here")
              "string" (PStr "$ANTHROPIC_API_KEY") None ];
        group "openai" "OpenAI account"
          "Instructions how to get an OpenAPI API key"
          [ leaf "apikey" "API Key" (Some "Your API key goes here")
              "string" (PStr "$OPENAI_API_KEY") None ] ] ].

(** The part of [SCHEMA] that the concrete scenario of the specification
    names: the group [ui] with [column] and [column-width]. *)
Definition scenario_schema : list SchemaDict.t :=
  [ group "ui" "User interface settings"
      "The following settings allow you to customize the look and feel of the User Interface."
      [ui_column; ui_column_width] ].

(* ================================================================== *)
(** ** Vocabulary of the specification *)

(** The key has no separator in it (section 4.3: "keys must not
    otherwise contain [.]"). *)
Fixpoint no_dot (s : string) : bool :=
  match s with
  | EmptyString => true
  | String c s' => negb (Ascii.eqb c ".") && no_dot s'
  end.

Fixpoint dot_free (d : SchemaDict.t) : bool :=
  no_dot (SchemaDict.key d)
  && match SchemaDict.fields d with
     | Some l => forallb dot_free l
     | None => true
     end.

Definition schema_dot_free (schema : list SchemaDict.t) : bool :=
  forallb dot_free schema.

(** Sibling descriptors have different keys (section 3: a key is "unique
    within the tree"). *)
Fixpoint distinct (l : list string) : bool :=
  match l with
  | [] => true
  | x :: l' => negb (existsb (String.eqb x) l') && distinct l'
  end.

Fixpoint unique_keys (d : SchemaDict.t) : bool :=
  match SchemaDict.fields d with
  | Some l => distinct (map SchemaDict.key l) && forallb unique_keys l
  | None => true
  end.

Definition schema_unique_keys (schema : list SchemaDict.t) : bool :=
  distinct (map SchemaDict.key schema) && forallb unique_keys schema.

(** Some leaf below [d], or [d] itself, declares a default. *)
Fixpoint declares_default (d : SchemaDict.t) : bool :=
  if String.eqb (SchemaDict.type d) "object" then
    match SchemaDict.fields d with
    | Some l => existsb declares_default l
    | None => false
    end
  else
    match SchemaDict.default d with
    | Some v => negb (is_None v)
    | None => false
    end.

(** [declared_default schema key v]: the schema has a leaf whose fully
    qualified key is [key] and whose descriptor gives the default [v]. *)
Inductive declared_default : list SchemaDict.t -> string -> pyobj -> Prop :=
| declared_here : forall schema d v,
    In d schema ->
    String.eqb (SchemaDict.type d) "object" = false ->
    SchemaDict.default d = Some v ->
    declared_default schema (SchemaDict.key d) v
| declared_below : forall schema o fs key v,
    In o schema ->
    String.eqb (SchemaDict.type o) "object" = true ->
    SchemaDict.fields o = Some fs ->
    declared_default fs key v ->
    declared_default schema (SchemaDict.key o ++ "." ++ key) v.

(** The keys of the specification's sentence on [keys], read on the
    schema definition: depth first and in declaration order, the
    qualified key of every node that is not an [object]. *)
Fixpoint spec_leaf_keys (name : string) (d : SchemaDict.t) : list string :=
  if String.eqb (SchemaDict.type d) "object" then
    match SchemaDict.fields d with
    | Some l =>
        flat_map (fun f => spec_leaf_keys (name ++ "." ++ SchemaDict.key f) f) l
    | None => []
    end
  else [name].

Definition spec_keys (schema : list SchemaDict.t) : list string :=
  flat_map (fun d => spec_leaf_keys (SchemaDict.key d) d) schema.

(** The same traversal, stopping also at an [object] that has no fields. *)
Fixpoint terminal_keys (name : string) (d : SchemaDict.t) : list string :=
  match SchemaDict.fields d with
  | Some ((_ :: _) as l) =>
      if String.eqb (SchemaDict.type d) "object" then
        flat_map (fun f => terminal_keys (name ++ "." ++ SchemaDict.key f) f) l
      else [name]
  | _ => [name]
  end.

Definition schema_terminal_keys (schema : list SchemaDict.t) : list string :=
  flat_map (fun d => terminal_keys (SchemaDict.key d) d) schema.

(** *** Auxiliary forms of the loops, used in the proofs *)

(** What one pass of [set_defaults] stores under the key of [d], if
    anything. *)
Definition default_value (d : SchemaDict.t) : option pyobj :=
  if String.eqb (SchemaDict.type d) "object" then
    match SchemaDict.fields d with
    | Some ((_ :: _) as fs) => Some (PDict (Schema.defaults fs))
    | _ => None
    end
  else
    match SchemaDict.default d with
    | Some v => if negb (is_None v) then Some v else None
    | None => None
    end.

(** The name that [build_settings] is called with for a descriptor whose
    key is [key]: the bare key at the top, [name.key] under [name]. *)
Definition qualify (parent : option string) (key : string) : string :=
  match parent with
  | Some name => name ++ "." ++ key
  | None => key
  end.

(** The dict comprehension of [build_settings] ([parent] is [Some name])
    and the loop of [settings_map] ([parent] is [None]). *)
Fixpoint build_loop (parent : option string) (fields : list SchemaDict.t)
    (acc : dict Setting.t) : dict Setting.t :=
  match fields with
  | [] => acc
  | f :: fields' =>
      build_loop parent fields'
        (setitem (SchemaDict.key f)
           (Schema.build_settings (qualify parent (SchemaDict.key f)) f) acc)
  end.

(** The last descriptor of the list that has the key [k]. *)
Fixpoint last_with_key (k : string) (schema : list SchemaDict.t)
    : option SchemaDict.t :=
  match schema with
  | [] => None
  | d :: schema' =>
      match last_with_key k schema' with
      | Some d' => Some d'
      | None => if String.eqb (SchemaDict.key d) k then Some d else None
      end
  end.

(** Joining segments with the separator, the inverse of [parse_key]. *)
Fixpoint join (path : list string) : string :=
  match path with
  | [] => EmptyString
  | [x] => x
  | x :: (_ :: _) as path' => x ++ "." ++ join path'
  end.

(** An environment in which only [USER] is set. *)
Definition environ_alice : environ_t :=
  fun name => if String.eqb name "USER" then Some "alice" else None.

(** Every character is a word character. *)
Fixpoint all_word (s : string) : bool :=
  match s with
  | EmptyString => true
  | String c s' => is_word_char c && all_word s'
  end.

(** The string has no dollar sign. *)
Fixpoint no_dollar (s : string) : bool :=
  match s with
  | EmptyString => true
  | String c s' => negb (Ascii.eqb c "$") && no_dollar s'
  end.

(** The two outcomes of a read that the specification allows for a key
    of the schema: a value, or the plain [KeyError]. *)
Definition found_or_missing (A : Type) (c : completion A) : Prop :=
  (exists v, c = Return v) \/ (exists arg, c = Raise (KeyError arg)).

(** Two small schema definitions: a group that has no fields, and a
    group whose only field is a group without fields. *)
Definition childless_group : list SchemaDict.t :=
  [ SchemaDict.mk "a" "A" "object" None None None None ].

Definition nested_empty : list SchemaDict.t :=
  [ SchemaDict.mk "a" "A" "object" None None
      (Some [ SchemaDict.mk "b" "B" "object" None None None None ]) None ].

(** A schema definition with a separator inside a key. *)
Definition dotted_schema : list SchemaDict.t :=
  [ SchemaDict.mk "a.b" "AB" "string" None (Some (PStr "x")) None None;
    SchemaDict.mk "a" "A" "string" None (Some (PStr "y")) None None ].

(** The statement about one level of the schema: every key that the
    compiled map of [schema] yields is the qualified form of a path of
    segments without separator, and walking that path in the defaults of
    [schema] ends with a value or with the plain [KeyError]. *)
Definition keys_readable (schema : list SchemaDict.t) : Prop :=
  schema_dot_free schema = true ->
  forall p k,
    In k (flat_map Schema.get_keys (values (build_loop p schema []))) ->
    exists path,
      path <> []
      /\ Forall (fun x => no_dot x = true) path
      /\ k = qualify p (join path)
      /\ found_or_missing
           (get_setting_loop (loop_last path) (Schema.defaults schema) Tobject).

(** *** Vocabulary of the further properties *)

(** Following a path of segments through nested mappings: the value that
    the last segment names in the mapping that the segments before it
    lead to. *)
Fixpoint lookup_path (settings : dict pyobj) (path : list string)
    : option pyobj :=
  match path with
  | [] => None
  | [k] => getitem settings k
  | k :: ((_ :: _) as rest) =>
      match getitem settings k with
      | Some (PDict sub) => lookup_path sub rest
      | _ => None
      end
  end.

(** The number of separators in a key. *)
Fixpoint count_dots (s : string) : nat :=
  match s with
  | EmptyString => 0
  | String c s' => (if Ascii.eqb c "." then 1 else 0) + count_dots s'
  end.

(** The first segment of a key. *)
Definition first_segment (key : string) : string :=
  hd EmptyString (parse_key key).

(** The pass of [set_defaults] over the descriptor stores an entry:
    a group with a non-empty [fields] list, or a leaf whose [default] is
    present and not [None]. *)
Definition stores_entry (d : SchemaDict.t) : bool :=
  if String.eqb (SchemaDict.type d) "object" then
    match SchemaDict.fields d with
    | Some (_ :: _) => true
    | _ => false
    end
  else
    match SchemaDict.default d with
    | Some v => negb (is_None v)
    | None => false
    end.

(** The entry that the pass stores, as a list of no or one entry. *)
Definition default_entry (d : SchemaDict.t) : dict pyobj :=
  match default_value d with
  | Some v => [(SchemaDict.key d, v)]
  | None => []
  end.

(** A compiled node and all the nodes below it, depth first. *)
Fixpoint subsettings (s : Setting.t) : list Setting.t :=
  s :: match Setting.children s with
       | Some children =>
           (fix each (cs : dict Setting.t) : list Setting.t :=
              match cs with
              | [] => []
              | (_, child) :: cs' => subsettings child ++ each cs'
              end) children
       | None => []
       end.

(** All the nodes of the compiled map of a schema definition. *)
Definition all_settings (schema : list SchemaDict.t) : list Setting.t :=
  flat_map subsettings (values (Schema.settings_map schema)).

(** [k] is [name] or a key below it. *)
Definition under (name k : string) : Prop :=
  k = name \/ exists rest : string, k = (name ++ "." ++ rest)%string.

(** What may follow a name in a key under it: nothing, or a separator
    and more. *)
Definition key_tail (x : string) : Prop :=
  x = EmptyString \/ exists rest : string, x = String "." rest.

(** The two cached attributes of a [Schema], and the state of an
    instance and of the heap after a sequence of accesses. *)
Inductive attribute : Type := attr_keys | attr_settings_map.

Definition access (a : attribute) (state : SchemaInstance.t * nat)
    : SchemaInstance.t * nat :=
  match a with
  | attr_keys =>
      let '(_, self, heap) :=
        SchemaInstance.keys (fst state) (snd state) in (self, heap)
  | attr_settings_map =>
      let '(_, self, heap) :=
        SchemaInstance.settings_map (fst state) (snd state) in (self, heap)
  end.

Fixpoint accesses (l : list attribute) (state : SchemaInstance.t * nat)
    : SchemaInstance.t * nat :=
  match l with
  | [] => state
  | a :: l' => accesses l' (access a state)
  end.

(** What is cached in the instance is what the functions compute from
    its schema definition. *)
Definition cache_consistent (self : SchemaInstance.t) : Prop :=
  (forall r, SchemaInstance.dict_settings_map self = Some r ->
             deref r = Schema.settings_map (SchemaInstance.schema self))
  /\ (forall r, SchemaInstance.dict_keys self = Some r ->
                deref r = Schema.keys (SchemaInstance.schema self)).

(** [leaf_key schema key]: the schema definition has a node that is not
    an [object], reached through groups, whose dotted key is [key]. *)
Inductive leaf_key : list SchemaDict.t -> string -> Prop :=
| leaf_key_here : forall schema d,
    In d schema ->
    String.eqb (SchemaDict.type d) "object" = false ->
    leaf_key schema (SchemaDict.key d)
| leaf_key_below : forall schema o fs key,
    In o schema ->
    String.eqb (SchemaDict.type o) "object" = true ->
    SchemaDict.fields o = Some fs ->
    leaf_key fs key ->
    leaf_key schema (SchemaDict.key o ++ "." ++ key).

(** The string without its first [n] characters. *)
Fixpoint string_drop (n : nat) (s : string) : string :=
  match n, s with
  | O, _ => s
  | S n', EmptyString => EmptyString
  | S n', String _ s' => string_drop n' s'
  end.

(* ================================================================== *)
(** ** The settings screen: [schema_to_widget]

    The inner function of [SettingsScreen.compose] in
    [src/toad/screens/settings.py] turns a compiled map into the widgets
    of the form.  A widget is the record of the constructor call that
    makes it; [str(setting.default)] is a parameter [py_str] of the
    model.  The function is a generator: what it yields before an
    exception is lost with the exception, which leaves [compose]. *)

Inductive Widget : Type :=
| Label (content : string) (classes : string)
| VerticalGroup (children : list Widget) (classes : string)
| SettingsInput (value : string) (type : string)
| Checkbox
| Select_from_values (values : pyobj).

(** The exceptions of [setting.validate[0]["choices"]]. *)
Inductive subscript_error : Type :=
| SubscriptTypeError
| SubscriptIndexError
| SubscriptKeyError (arg : string).

Inductive rendering : Type :=
| Rendered (widgets : list Widget)
| Failed (e : subscript_error).

(** [validate[0]["choices"]]: [None] is not subscriptable, an empty list
    has no first element, a [dict] may lack the key, and no other value
    takes a [str] as index. *)
Definition first_choices (validate : option (list pyobj))
    : subscript_error + pyobj :=
  match validate with
  | None => inl SubscriptTypeError
  | Some [] => inl SubscriptIndexError
  | Some (PDict d :: _) =>
      match getitem d "choices" with
      | Some choices => inr choices
      | None => inl (SubscriptKeyError "choices")
      end
  | Some (_ :: _) => inl SubscriptTypeError
  end.

(** [if setting.help:] on a [str] *)
Definition nonempty (s : string) : bool :=
  match s with EmptyString => false | String _ _ => true end.

Section SchemaToWidget.
Variable py_str : pyobj -> string.

(** The widgets of one pass of the loop; the local [fix] is the call of
    [schema_to_widget] on [setting.children], whose widgets become the
    children of the group. *)
Fixpoint setting_widgets (setting : Setting.t) : rendering :=
  let labels :=
    Label (Setting.title setting) "title"
    :: (if nonempty (Setting.help setting)
        then [Label (Setting.help setting) "help"] else []) in
  if String.eqb (Setting.type setting) "object" then
    match Setting.children setting with
    | Some children =>
        match (fix each (cs : dict Setting.t) : rendering :=
                 match cs with
                 | [] => Rendered []
                 | (_, child) :: cs' =>
                     match setting_widgets child with
                     | Failed e => Failed e
                     | Rendered ws =>
                         match each cs' with
                         | Failed e => Failed e
                         | Rendered ws' => Rendered (ws ++ ws')
                         end
                     end
                 end) children with
        | Failed e => Failed e
        | Rendered inner =>
            Rendered (labels ++ [VerticalGroup inner "container"])
        end
    | None => Rendered []
    end
  else if String.eqb (Setting.type setting) "string" then
    Rendered (labels ++ [SettingsInput (py_str (Setting.default setting))
                           "text"])
  else if String.eqb (Setting.type setting) "boolean" then
    Rendered (labels ++ [Checkbox])
  else if String.eqb (Setting.type setting) "integer" then
    Rendered (labels ++ [SettingsInput (py_str (Setting.default setting))
                           "integer"])
  else if String.eqb (Setting.type setting) "choices" then
    match first_choices (Setting.validate setting) with
    | inl e => Failed e
    | inr choices => Rendered (labels ++ [Select_from_values choices])
    end
  else Rendered labels.

Fixpoint schema_to_widget (settings_map : dict Setting.t) : rendering :=
  match settings_map with
  | [] => Rendered []
  | (_, setting) :: settings_map' =>
      match setting_widgets setting with
      | Failed e => Failed e
      | Rendered ws =>
          match schema_to_widget settings_map' with
          | Failed e => Failed e
          | Rendered ws' => Rendered (ws ++ ws')
          end
      end
  end.
End SchemaToWidget.


(** The contents of the title labels among the widgets, not entering
    the groups. *)
Definition titles (ws : list Widget) : list string :=
  flat_map (fun w => match w with
                     | Label content classes =>
                         if String.eqb classes "title" then [content] else []
                     | _ => []
                     end) ws.

(* ================================================================== *)
(** * Properties *)

(** ** Dictionaries *)

Section DictFacts.
Variable V : Type.
Implicit Types (d : dict V) (k : string) (v : V).

Lemma getitem_setitem_eq : forall d k v,
  getitem (setitem k v d) k = Some v.
Proof.
  induction d as [|[k' w] d IH]; intros k v; simpl.
  - now rewrite String.eqb_refl.
  - destruct (String.eqb k' k) eqn:E; simpl; rewrite E; auto.
Qed.

Lemma getitem_setitem_neq : forall d k k' v,
  k <> k' -> getitem (setitem k v d) k' = getitem d k'.
Proof.
  induction d as [|[k0 w] d IH]; intros k k' v Hne; simpl.
  - destruct (String.eqb_spec k k'); congruence.
  - destruct (String.eqb_spec k0 k) as [->|Hk]; simpl.
    + destruct (String.eqb_spec k k'); congruence.
    + destruct (String.eqb_spec k0 k'); auto.
Qed.

Lemma setitem_not_nil : forall d k v, setitem k v d <> [].
Proof.
  intros [|[k0 w] d] k v; simpl; [discriminate|].
  destruct (String.eqb k0 k); discriminate.
Qed.

Lemma dict_keys_setitem_in : forall d k v,
  In k (dict_keys d) -> dict_keys (setitem k v d) = dict_keys d.
Proof.
  unfold dict_keys.
  induction d as [|[k0 w] d IH]; intros k v Hin; simpl in *; [tauto|].
  destruct (String.eqb_spec k0 k) as [->|Hk]; simpl; auto.
  destruct Hin as [->|Hin]; [congruence|].
  now rewrite IH.
Qed.

Lemma setitem_fresh : forall d k v,
  ~ In k (dict_keys d) -> setitem k v d = d ++ [(k, v)].
Proof.
  unfold dict_keys.
  induction d as [|[k0 w] d IH]; intros k v Hnin; simpl in *; auto.
  destruct (String.eqb_spec k0 k) as [->|Hk]; [tauto|].
  rewrite IH; auto.
Qed.

Lemma getitem_In : forall d k v, getitem d k = Some v -> In (k, v) d.
Proof.
  induction d as [|[k0 w] d IH]; intros k v; simpl; [discriminate|].
  destruct (String.eqb_spec k0 k) as [->|Hk]; intros H.
  - left. congruence.
  - right. auto.
Qed.

Lemma In_getitem : forall d k v,
  NoDup (dict_keys d) -> In (k, v) d -> getitem d k = Some v.
Proof.
  unfold dict_keys.
  induction d as [|[k0 w] d IH]; intros k v Hnd Hin; simpl in *; [tauto|].
  inversion Hnd as [|? ? Hnotin Hnd']; subst.
  destruct Hin as [Heq|Hin].
  - inversion Heq; subst. now rewrite String.eqb_refl.
  - destruct (String.eqb_spec k0 k) as [->|Hk]; auto.
    exfalso. apply Hnotin. change (In k (map fst d)).
    apply in_map_iff. now exists (k, v).
Qed.

Lemma dict_keys_setitem_cases : forall d k v,
  dict_keys (setitem k v d) = dict_keys d
  \/ (~ In k (dict_keys d) /\ dict_keys (setitem k v d) = dict_keys d ++ [k]).
Proof.
  intros d k v.
  destruct (in_dec string_dec k (dict_keys d)) as [Hin|Hnin].
  - left. now apply dict_keys_setitem_in.
  - right. split; auto. rewrite setitem_fresh by assumption.
    unfold dict_keys. now rewrite map_app.
Qed.

Lemma NoDup_setitem : forall d k v,
  NoDup (dict_keys d) -> NoDup (dict_keys (setitem k v d)).
Proof.
  intros d k v Hnd.
  destruct (dict_keys_setitem_cases d k v) as [->|[Hnin ->]]; auto.
  apply NoDup_app; auto.
  - repeat constructor. simpl. tauto.
  - intros x Hx [<-|[]]. contradiction.
Qed.
End DictFacts.

(** ** Splitting and joining keys *)

Lemma split_not_nil : forall sep s, split sep s <> [].
Proof.
  intros sep s. destruct s as [|c s]; simpl; [discriminate|].
  destruct (Ascii.eqb c sep); [discriminate|].
  destruct (split sep s); discriminate.
Qed.

Lemma parse_key_no_dot : forall a, no_dot a = true -> parse_key a = [a].
Proof.
  unfold parse_key.
  induction a as [|c a IH]; simpl; intros H; auto.
  apply andb_true_iff in H as [Hc Ha].
  apply negb_true_iff in Hc. rewrite Hc, (IH Ha). reflexivity.
Qed.

Lemma parse_key_qualified : forall a b,
  no_dot a = true -> parse_key (a ++ "." ++ b) = a :: parse_key b.
Proof.
  unfold parse_key.
  induction a as [|c a IH]; simpl; intros b H; auto.
  apply andb_true_iff in H as [Hc Ha].
  apply negb_true_iff in Hc. rewrite Hc.
  simpl in IH. rewrite (IH b Ha). reflexivity.
Qed.

Lemma loop_last_more : forall (A : Type) (x : A) xs,
  xs <> [] -> loop_last (x :: xs) = (false, x) :: loop_last xs.
Proof.
  intros A x [|y xs] H; [congruence|reflexivity].
Qed.

Lemma loop_last_not_nil : forall (A : Type) (xs : list A),
  xs <> [] -> loop_last xs <> [].
Proof.
  intros A [|x [|y xs]] H; simpl; congruence.
Qed.

(** ** The loop of [get_setting] *)

(** On the items of a non-empty sequence the loop does not run to its
    end: the pass flagged as last returns or raises, if no earlier pass
    raised. *)
Lemma get_setting_loop_not_Normal : forall (xs : list string) settings T,
  xs <> [] -> get_setting_loop (loop_last xs) settings T <> Normal.
Proof.
  induction xs as [|x xs IH]; intros settings T Hne; [congruence|].
  destruct xs as [|y xs].
  - simpl. destruct (getitem settings x) as [r|]; [|discriminate].
    destruct (negb (isinstance r T)); discriminate.
  - rewrite loop_last_more by discriminate.
    cbn [get_setting_loop].
    destruct (getitem settings x) as [[| | | | |sub]|]; try discriminate.
    apply IH. discriminate.
Qed.

(** C10. Splitting any key on the separator gives at least one segment,
    and on the segments of a key the loop of [get_setting] always ends by
    a [return] or by an exception raised in its body, whatever the
    settings and the expected type: the loop is never exhausted, so the
    [raise KeyError(key)] that follows it is not reached. *)
Theorem get_setting_trailing_raise_unreachable :
  forall (settings : dict pyobj) (key : string) (T : pytype),
    (exists first rest, parse_key key = first :: rest)
    /\ get_setting_loop (loop_last (parse_key key)) settings T <> Normal.
Proof.
  intros settings key T. split.
  - destruct (parse_key key) as [|first rest] eqn:E.
    + exfalso. exact (split_not_nil _ _ E).
    + now exists first, rest.
  - apply get_setting_loop_not_Normal. apply split_not_nil.
Qed.

(** ** The concrete scenario *)

(** C4. For the schema that defines [ui.column] (boolean, default [True])
    and [ui.column-width] (integer, default [100], minimum [40]),
    [defaults()] is [{"ui": {"column": True, "column-width": 100}}];
    reading [ui.column-width] from it as an [int] returns [100], and
    reading it as a [str] raises [InvalidValue]. *)
Theorem scenario_defaults_and_reads :
  Schema.defaults scenario_schema
  = [("ui", PDict [("column", PBool true); ("column-width", PInt 100)])]
  /\ get_setting (Schema.defaults scenario_schema) "ui.column-width" Tint
     = Returns (PInt 100)
  /\ get_setting (Schema.defaults scenario_schema) "ui.column-width" Tstr
     = Raises (InvalidValue Tstr (PInt 100)).
Proof.
  repeat split; reflexivity.
Qed.

(** The same reads on the defaults of the whole [SCHEMA]. *)
Lemma SCHEMA_column_width_reads :
  get_setting (Schema.defaults SCHEMA) "ui.column-width" Tint
  = Returns (PInt 100)
  /\ get_setting (Schema.defaults SCHEMA) "ui.column-width" Tstr
     = Raises (InvalidValue Tstr (PInt 100)).
Proof.
  split; reflexivity.
Qed.

(** ** [set_value] *)

(** No descriptor of a schema definition compares equal to a [str]. *)
Lemma list_contains_schema : forall key (schema : list SchemaDict.t),
  list_contains key (map SchemaDict.as_object schema) = false.
Proof.
  intros key schema. unfold list_contains.
  induction schema as [|d schema IH]; simpl; auto.
  rewrite IH. destruct d; reflexivity.
Qed.

Lemma set_value_body_raises : forall schema settings last key value,
  snd (Schema.set_value_body schema settings last key value)
  = Raise InvalidKey.
Proof.
  intros. unfold Schema.set_value_body.
  now rewrite list_contains_schema.
Qed.

(** Every call of [set_value] raises [InvalidKey], whatever the schema,
    the values tree, the key and the value. *)
Lemma set_value_raises_InvalidKey : forall schema settings key value,
  snd (Schema.set_value schema settings key value) = Raises InvalidKey.
Proof.
  intros schema settings key value. unfold Schema.set_value.
  destruct (loop_last (parse_key key)) as [|[last k] items] eqn:E.
  - exfalso. apply (loop_last_not_nil (xs := parse_key key)); auto.
    apply split_not_nil.
  - unfold Schema.set_value_loop, Schema.set_value_body.
    rewrite list_contains_schema. reflexivity.
Qed.

(** A key of two segments or more leaves the values tree as it was. *)
Lemma set_value_dotted_unchanged : forall schema settings key value k rest,
  parse_key key = k :: rest -> rest <> [] ->
  fst (Schema.set_value schema settings key value) = settings.
Proof.
  intros schema settings key value k rest E Hne.
  unfold Schema.set_value. rewrite E, loop_last_more by assumption.
  unfold Schema.set_value_loop, Schema.set_value_body.
  rewrite list_contains_schema. reflexivity.
Qed.

(** A key of one segment is stored in the values tree before the call
    raises. *)
Lemma set_value_single_stored : forall schema settings key value,
  no_dot key = true ->
  fst (Schema.set_value schema settings key value)
  = setitem key value settings.
Proof.
  intros schema settings key value H.
  unfold Schema.set_value. rewrite (parse_key_no_dot _ H).
  unfold Schema.set_value_loop, Schema.set_value_body. simpl.
  rewrite list_contains_schema. reflexivity.
Qed.

(** C1, at the failing input: [ui.column] is a key of [SCHEMA], and on the
    defaults of [SCHEMA] the call [set_value(settings, "ui.column", False)]
    raises [InvalidKey] and leaves the tree as it was, so that
    [get_setting] afterwards still returns the old value [True]. *)
Theorem set_value_SCHEMA_key_rejected :
  let settings := Schema.defaults SCHEMA in
  let after := Schema.set_value SCHEMA settings "ui.column" (PBool false) in
  In "ui.column" (Schema.keys SCHEMA)
  /\ after = (settings, Raises InvalidKey)
  /\ get_setting (fst after) "ui.column" Tobject = Returns (PBool true).
Proof.
  cbv zeta. split; [|split].
  - vm_compute. tauto.
  - reflexivity.
  - reflexivity.
Qed.

(** C2, at the failing input: [bogus] is no key of [SCHEMA]; the call
    [set_value(settings, "bogus", 1)] on the defaults of [SCHEMA] raises
    [InvalidKey], and the tree has the entry [bogus] afterwards, which it
    did not have before. *)
Theorem set_value_unknown_key_stored :
  let settings := Schema.defaults SCHEMA in
  let after := Schema.set_value SCHEMA settings "bogus" (PInt 1) in
  ~ In "bogus" (Schema.keys SCHEMA)
  /\ snd after = Raises InvalidKey
  /\ getitem settings "bogus" = None
  /\ getitem (fst after) "bogus" = Some (PInt 1).
Proof.
  cbv zeta. split; [|repeat split; reflexivity].
  vm_compute. intros H.
  repeat (destruct H as [H|H]; [discriminate H|]). exact H.
Qed.

(** ** [cached_property] *)

(** C9. Two accesses of [settings_map] in a row on the same [Schema]:
    the second returns the object that the first returned, at the same
    address, and changes neither the instance nor the heap, so nothing
    is computed again. *)
Theorem settings_map_memoized :
  forall (self : SchemaInstance.t) (heap : nat),
    let '(first, self1, heap1) := SchemaInstance.settings_map self heap in
    let '(second, self2, heap2) := SchemaInstance.settings_map self1 heap1 in
    second = first /\ self2 = self1 /\ heap2 = heap1.
Proof.
  intros [schema ks [m|]] heap; simpl; auto.
Qed.

(** On a new instance the first access computes the map of the schema
    and allocates it. *)
Lemma settings_map_first_access : forall schema heap,
  SchemaInstance.settings_map (SchemaInstance.init schema) heap
  = (mkref heap (Schema.settings_map schema),
     SchemaInstance.mk schema None
       (Some (mkref heap (Schema.settings_map schema))),
     S heap).
Proof.
  reflexivity.
Qed.

(** ** Environment variables *)

Lemma span_word_all : forall s, all_word s = true -> span_word s = (s, "").
Proof.
  induction s as [|c s IH]; simpl; intros H; auto.
  apply andb_true_iff in H as [Hc Hs]. now rewrite Hc, (IH Hs).
Qed.

Lemma expandvars_from_skip_all : forall environ s,
  expandvars_from environ (String.length s) s = "".
Proof.
  induction s as [|c s IH]; simpl; auto.
Qed.

Lemma substring_all : forall s, substring 0 (String.length s) s = s.
Proof.
  induction s as [|c s IH]; simpl; congruence.
Qed.

Lemma append_empty_r : forall s : string, (s ++ "")%string = s.
Proof.
  induction s as [|c s IH]; simpl; congruence.
Qed.

(** A reference to a variable, alone in the string: its value when the
    variable is set, the reference itself when it is not. *)
Lemma expandvars_reference : forall (environ : environ_t) name,
  name <> "" -> all_word name = true ->
  expandvars environ ("$" ++ name)
  = match environ name with
    | Some value => value
    | None => ("$" ++ name)%string
    end.
Proof.
  intros environ name Hne Hw. unfold expandvars. simpl.
  unfold match_var. rewrite (span_word_all _ Hw).
  destruct name as [|c name]; [congruence|].
  destruct (environ (String c name)) as [value|].
  - rewrite expandvars_from_skip_all. apply append_empty_r.
  - rewrite expandvars_from_skip_all, substring_all, append_empty_r.
    reflexivity.
Qed.

(** A string without a dollar sign is returned as it is. *)
Lemma expandvars_no_dollar : forall environ s,
  no_dollar s = true -> expandvars environ s = s.
Proof.
  intros environ. unfold expandvars.
  induction s as [|c s IH]; simpl; intros H; auto.
  apply andb_true_iff in H as [Hc Hs]. apply negb_true_iff in Hc.
  rewrite Hc, (IH Hs). reflexivity.
Qed.

(** [get] is [get_setting] followed by the expansion of a [str]. *)
Lemma Settings_get_str : forall environ self key T s,
  get_setting (Settings._settings self) key T = Returns (PStr s) ->
  Settings.get environ self key T = Returns (PStr (expandvars environ s)).
Proof.
  intros environ self key T s H. unfold Settings.get. now rewrite H.
Qed.

(** C8. [Settings.get] expands references to environment variables under
    the environment of the call: with the values tree
    [{"user": {"name": "$USER"}}] and an environment that sets [USER],
    [get("user.name", str)] returns the value of [USER] ([alice] when
    [USER=alice]); the text [$UNSET_VAR] is returned as it is when the
    environment does not set [UNSET_VAR]. *)
Theorem Settings_get_expands_environment :
  forall (environ : environ_t) (schema : list SchemaDict.t) (value : string),
    environ "USER" = Some value ->
    environ "UNSET_VAR" = None ->
    Settings.get environ
      (Settings.mk schema [("user", PDict [("name", PStr "$USER")])])
      "user.name" Tstr
    = Returns (PStr value)
    /\ Settings.get environ
         (Settings.mk schema [("user", PDict [("name", PStr "$UNSET_VAR")])])
         "user.name" Tstr
       = Returns (PStr "$UNSET_VAR").
Proof.
  intros environ schema value Hset Hunset. split.
  - erewrite Settings_get_str by reflexivity.
    assert (E : expandvars environ ("$" ++ "USER") = value).
    { rewrite expandvars_reference by (discriminate || reflexivity).
      now rewrite Hset. }
    simpl append in E. now rewrite E.
  - erewrite Settings_get_str by reflexivity.
    assert (E : expandvars environ ("$" ++ "UNSET_VAR") = "$UNSET_VAR").
    { rewrite expandvars_reference by (discriminate || reflexivity).
      now rewrite Hunset. }
    simpl append in E. now rewrite E.
Qed.

Lemma Settings_get_expands_environment_witness :
  Settings.get environ_alice
    (Settings.mk SCHEMA [("user", PDict [("name", PStr "$USER")])])
    "user.name" Tstr
  = Returns (PStr "alice")
  /\ Settings.get environ_alice
       (Settings.mk SCHEMA [("user", PDict [("name", PStr "$UNSET_VAR")])])
       "user.name" Tstr
     = Returns (PStr "$UNSET_VAR").
Proof.
  apply (Settings_get_expands_environment environ_alice SCHEMA
           (value := "alice")); reflexivity.
Defined.

(** ** Induction on schema definitions *)

(** The induction principle of a descriptor whose hypothesis covers the
    descriptors of [fields]. *)
Lemma SchemaDict_nested_ind : forall P : SchemaDict.t -> Prop,
  (forall k t ty h df fs v,
      match fs with Some l => Forall P l | None => True end ->
      P (SchemaDict.mk k t ty h df fs v)) ->
  forall d, P d.
Proof.
  intros P H. fix IH 1. intros [k t ty h df fs v]. apply H.
  destruct fs as [l|]; [|exact I].
  induction l as [|x l IHl]; constructor; [apply IH|exact IHl].
Qed.

(** ** The loops, unfolded *)

Lemma set_default_eq : forall d settings,
  Schema.set_default d settings
  = match default_value d with
    | Some v => setitem (SchemaDict.key d) v settings
    | None => settings
    end.
Proof.
  intros [k t ty h df fs v] settings. unfold default_value. simpl.
  destruct (String.eqb ty "object").
  - destruct fs as [[|f fs]|]; reflexivity.
  - destruct df as [dv|]; [|reflexivity].
    destruct (negb (is_None dv)); reflexivity.
Qed.

Lemma settings_map_loop_eq : forall schema acc,
  Schema.settings_map_loop schema acc = build_loop None schema acc.
Proof.
  induction schema as [|d schema IH]; intros acc; simpl; auto.
Qed.

Lemma build_settings_key : forall name d,
  Setting.key (Schema.build_settings name d) = name.
Proof.
  intros name [k t ty h df fs v]. simpl.
  destruct (String.eqb ty "object"); reflexivity.
Qed.

Lemma build_settings_type : forall name d,
  Setting.type (Schema.build_settings name d) = SchemaDict.type d.
Proof.
  intros name [k t ty h df fs v]. simpl.
  destruct (String.eqb ty "object"); reflexivity.
Qed.

Lemma build_settings_children : forall name d,
  Setting.children (Schema.build_settings name d)
  = if String.eqb (SchemaDict.type d) "object"
    then Some (build_loop (Some name) (SchemaDict.get_fields d) [])
    else None.
Proof.
  intros name [k t ty h df fs v]. unfold SchemaDict.get_fields. simpl.
  destruct (String.eqb ty "object"); [|reflexivity].
  destruct fs as [l|]; [|reflexivity]. simpl. f_equal.
  generalize (@nil (string * Setting.t)).
  induction l as [|f l IH]; intros acc; simpl; [reflexivity|].
  apply IH.
Qed.

Lemma get_keys_eq : forall s,
  Schema.get_keys s
  = if String.eqb (Setting.type s) "object"
       && truthy_children (Setting.children s)
    then flat_map Schema.get_keys
           (values (match Setting.children s with
                    | Some c => c
                    | None => []
                    end))
    else [Setting.key s].
Proof.
  intros [k t ty h df v c]. simpl.
  destruct (String.eqb ty "object" && truthy_children c); [|reflexivity].
  destruct c as [c|]; [|reflexivity].
  induction c as [|[k0 s0] c IH]; simpl; [reflexivity|].
  now rewrite IH.
Qed.

Lemma build_loop_not_nil : forall p fields acc,
  fields <> [] -> build_loop p fields acc <> [].
Proof.
  intros p fields. induction fields as [|f fields IH]; intros acc H.
  - congruence.
  - simpl. destruct fields as [|g fields].
    + simpl. apply setitem_not_nil.
    + apply IH. discriminate.
Qed.

(** The keys below a compiled node, in terms of its descriptor. *)
Lemma get_keys_build_settings : forall name d,
  Schema.get_keys (Schema.build_settings name d)
  = match SchemaDict.fields d with
    | Some ((_ :: _) as l) =>
        if String.eqb (SchemaDict.type d) "object"
        then flat_map Schema.get_keys (values (build_loop (Some name) l []))
        else [name]
    | _ => [name]
    end.
Proof.
  intros name d. rewrite get_keys_eq.
  rewrite build_settings_type, build_settings_children, build_settings_key.
  unfold SchemaDict.get_fields.
  destruct (String.eqb (SchemaDict.type d) "object").
  - destruct (SchemaDict.fields d) as [[|f l]|]; try reflexivity.
    assert (E : build_loop (Some name) (f :: l) [] <> [])
      by (apply build_loop_not_nil; discriminate).
    destruct (build_loop (Some name) (f :: l) []); [congruence|reflexivity].
  - destruct (SchemaDict.fields d) as [[|f l]|]; reflexivity.
Qed.

(** ** Which descriptor decides an entry *)

Lemma last_with_key_Some : forall k schema d,
  last_with_key k schema = Some d -> SchemaDict.key d = k /\ In d schema.
Proof.
  induction schema as [|d0 schema IH]; intros d H; simpl in H.
  - discriminate.
  - destruct (last_with_key k schema) as [d'|].
    + inversion H; subst. destruct (IH d eq_refl). simpl. tauto.
    + destruct (String.eqb_spec (SchemaDict.key d0) k); inversion H; subst.
      simpl. tauto.
Qed.

Lemma last_with_key_None : forall k schema d,
  last_with_key k schema = None -> In d schema -> SchemaDict.key d <> k.
Proof.
  induction schema as [|d0 schema IH]; intros d H Hin; simpl in *.
  - tauto.
  - destruct (last_with_key k schema) as [d'|]; [discriminate|].
    destruct (String.eqb_spec (SchemaDict.key d0) k); [discriminate|].
    destruct Hin as [<-|Hin]; auto.
Qed.

(** Descriptors with another key leave the entry of [k] alone. *)
Lemma getitem_set_defaults_other : forall k schema settings,
  last_with_key k schema = None ->
  getitem (Schema.set_defaults schema settings) k = getitem settings k.
Proof.
  induction schema as [|d schema IH]; intros settings H; simpl in *; auto.
  destruct (last_with_key k schema) as [d'|]; [discriminate|].
  destruct (String.eqb_spec (SchemaDict.key d) k) as [|Hk]; [discriminate|].
  rewrite IH by reflexivity. rewrite set_default_eq.
  destruct (default_value d); auto using getitem_setitem_neq.
Qed.

(** The last descriptor with the key [k] decides the entry of [k], when
    it stores something. *)
Lemma getitem_set_defaults_last : forall k schema settings d v,
  last_with_key k schema = Some d ->
  default_value d = Some v ->
  getitem (Schema.set_defaults schema settings) k = Some v.
Proof.
  induction schema as [|d0 schema IH]; intros settings d v H Hv; simpl in *.
  - discriminate.
  - destruct (last_with_key k schema) as [d'|] eqn:E.
    + inversion H; subst. eapply IH; eauto.
    + destruct (String.eqb_spec (SchemaDict.key d0) k) as [Hk|];
        inversion H; subst.
      rewrite getitem_set_defaults_other by assumption.
      rewrite set_default_eq, Hv. apply getitem_setitem_eq.
Qed.

Lemma getitem_defaults_last : forall k schema d v,
  last_with_key k schema = Some d ->
  default_value d = Some v ->
  getitem (Schema.defaults schema) k = Some v.
Proof.
  intros. unfold Schema.defaults. eapply getitem_set_defaults_last; eauto.
Qed.

Lemma getitem_build_loop_other : forall p k fields acc,
  last_with_key k fields = None ->
  getitem (build_loop p fields acc) k = getitem acc k.
Proof.
  induction fields as [|f fields IH]; intros acc H; simpl in *; auto.
  destruct (last_with_key k fields) as [d'|]; [discriminate|].
  destruct (String.eqb_spec (SchemaDict.key f) k) as [|Hk]; [discriminate|].
  rewrite IH by reflexivity. now apply getitem_setitem_neq.
Qed.

Lemma getitem_build_loop_last : forall p k fields acc d,
  last_with_key k fields = Some d ->
  getitem (build_loop p fields acc) k
  = Some (Schema.build_settings (qualify p (SchemaDict.key d)) d).
Proof.
  induction fields as [|f fields IH]; intros acc d H; simpl in *.
  - discriminate.
  - destruct (last_with_key k fields) as [d'|] eqn:E.
    + inversion H; subst. now apply IH.
    + destruct (String.eqb_spec (SchemaDict.key f) k) as [Hk|];
        inversion H; subst.
      rewrite getitem_build_loop_other by assumption.
      apply getitem_setitem_eq.
Qed.

Lemma NoDup_build_loop : forall p fields acc,
  NoDup (dict_keys acc) -> NoDup (dict_keys (build_loop p fields acc)).
Proof.
  induction fields as [|f fields IH]; intros acc H; simpl; auto.
  apply IH. now apply NoDup_setitem.
Qed.

(** Every entry of a compiled map is the compilation of the last
    descriptor that has its key. *)
Lemma build_loop_entry : forall p fields k s,
  In (k, s) (build_loop p fields []) ->
  exists d, last_with_key k fields = Some d
            /\ s = Schema.build_settings (qualify p (SchemaDict.key d)) d.
Proof.
  intros p fields k s Hin.
  apply In_getitem in Hin; [|apply NoDup_build_loop; constructor].
  destruct (last_with_key k fields) as [d|] eqn:E.
  - exists d. split; auto.
    erewrite getitem_build_loop_last in Hin by eassumption. congruence.
  - rewrite getitem_build_loop_other in Hin by assumption. discriminate.
Qed.

(** ** Qualified keys *)

Lemma append_assoc : forall a b c : string,
  ((a ++ b) ++ c)%string = (a ++ (b ++ c))%string.
Proof.
  induction a as [|x a IH]; intros b c; simpl; [reflexivity|].
  now rewrite IH.
Qed.

Lemma qualify_nested : forall p a b,
  qualify (Some (qualify p a)) b = qualify p (a ++ "." ++ b).
Proof.
  intros [name|] a b; simpl; [|reflexivity].
  change (String "." b) with ("." ++ b)%string.
  change (String "." (a ++ "." ++ b)) with ("." ++ (a ++ "." ++ b))%string.
  rewrite !append_assoc. reflexivity.
Qed.

Lemma parse_key_join : forall path,
  path <> [] -> Forall (fun x => no_dot x = true) path ->
  parse_key (join path) = path.
Proof.
  induction path as [|x path IH]; intros Hne Hall; [congruence|].
  inversion Hall as [|? ? Hx Hpath]; subst.
  destruct path as [|y path].
  - simpl. now apply parse_key_no_dot.
  - change (join (x :: y :: path)) with (x ++ "." ++ join (y :: path))%string.
    rewrite parse_key_qualified by assumption.
    rewrite IH; auto. discriminate.
Qed.

(** ** Reading the defaults at the keys of the schema *)

Lemma keys_readable_step : forall schema,
  Forall (fun d => forall l, SchemaDict.fields d = Some l -> keys_readable l)
    schema ->
  keys_readable schema.
Proof.
  intros schema HP Hdf p k Hin.
  apply in_flat_map in Hin as (s & Hs & Hk).
  unfold values in Hs. apply in_map_iff in Hs as ([k0 s0] & Heq & Hentry).
  simpl in Heq. subst s0.
  apply build_loop_entry in Hentry as (d & Hlast & ->).
  destruct (last_with_key_Some _ _ Hlast) as [Hkey Hd].
  assert (Hdd : dot_free d = true).
  { unfold schema_dot_free in Hdf. rewrite forallb_forall in Hdf. auto. }
  assert (Hnd : no_dot (SchemaDict.key d) = true).
  { destruct d; simpl in Hdd. apply andb_true_iff in Hdd. tauto. }
  rewrite get_keys_build_settings in Hk.
  destruct (SchemaDict.fields d) as [[|f l]|] eqn:Ef;
    [| destruct (String.eqb (SchemaDict.type d) "object") eqn:Ety |].
  2: {
    (* an object with fields: one more segment, then the path below *)
    rewrite Forall_forall in HP.
    assert (Hsub : schema_dot_free (f :: l) = true).
    { destruct d; simpl in *. subst. apply andb_true_iff in Hdd. tauto. }
    destruct (HP d Hd (f :: l) Ef Hsub
                (Some (qualify p (SchemaDict.key d))) k Hk)
      as (path & Hne & Hall & Hq & Hout).
    exists (SchemaDict.key d :: path). repeat split.
    - discriminate.
    - constructor; assumption.
    - rewrite Hq, qualify_nested. destruct path; [congruence|reflexivity].
    - assert (Hg : getitem (Schema.defaults schema) (SchemaDict.key d)
                   = Some (PDict (Schema.defaults (f :: l)))).
      { eapply getitem_defaults_last.
        - rewrite Hkey. exact Hlast.
        - unfold default_value. now rewrite Ety, Ef. }
      rewrite loop_last_more by assumption. cbn [get_setting_loop].
      rewrite Hg. exact Hout. }
  all: destruct Hk as [<-|[]];
    exists [SchemaDict.key d]; repeat split; try discriminate;
    try (constructor; [assumption|constructor]);
    simpl;
    (destruct (getitem (Schema.defaults schema) (SchemaDict.key d)) as [r|];
     [left; exists r; reflexivity | right; eexists; reflexivity]).
Qed.

Lemma keys_readable_fields : forall d l,
  SchemaDict.fields d = Some l -> keys_readable l.
Proof.
  induction d as [k t ty h df fs v IH] using SchemaDict_nested_ind.
  simpl. intros l E. subst fs. now apply keys_readable_step.
Qed.

Lemma keys_readable_all : forall schema, keys_readable schema.
Proof.
  intros schema. apply keys_readable_step.
  apply Forall_forall. intros d _. apply keys_readable_fields.
Qed.

(** [get_setting] has no way to raise [InvalidKey]. *)
Lemma get_setting_loop_never_InvalidKey : forall items settings T,
  get_setting_loop items settings T <> Raise InvalidKey.
Proof.
  induction items as [|[last kc] items IH]; intros settings T; simpl.
  - discriminate.
  - destruct last.
    + destruct (getitem settings kc) as [r|]; [|discriminate].
      destruct (negb (isinstance r T)); discriminate.
    + destruct (getitem settings kc) as [[| | | | |sub]|];
        try discriminate. apply IH.
Qed.

Lemma get_setting_never_InvalidKey : forall settings key T,
  get_setting settings key T <> Raises InvalidKey.
Proof.
  intros settings key T. unfold get_setting.
  pose proof (get_setting_loop_never_InvalidKey
                (loop_last (parse_key key)) settings T) as H.
  destruct (get_setting_loop (loop_last (parse_key key)) settings T);
    congruence.
Qed.

(** Why the keys must have no separator in them: the key [a.b] of
    [dotted_schema] is read as the path [a], [b], and the entry of [a] is
    no mapping. *)
Lemma dotted_key_read :
  Schema.keys dotted_schema = ["a.b"; "a"]
  /\ get_setting (Schema.defaults dotted_schema) "a.b" Tobject
     = Raises AssertionError.
Proof.
  split; reflexivity.
Qed.

(** C5. For a schema whose keys have no separator in them and for every
    key [k] of [Schema.keys], reading [k] from the defaults with the
    expected type [object] returns a value or raises the plain
    [KeyError]; in particular it does not raise [InvalidKey]. *)
Theorem keys_read_from_defaults :
  forall (schema : list SchemaDict.t) (k : string),
    schema_dot_free schema = true ->
    In k (Schema.keys schema) ->
    ((exists v, get_setting (Schema.defaults schema) k Tobject = Returns v)
     \/ (exists arg, get_setting (Schema.defaults schema) k Tobject
                     = Raises (KeyError arg)))
    /\ get_setting (Schema.defaults schema) k Tobject <> Raises InvalidKey.
Proof.
  intros schema k Hdf Hin.
  unfold Schema.keys, Schema.settings_map in Hin.
  rewrite settings_map_loop_eq in Hin.
  destruct (keys_readable_all schema Hdf None k Hin)
    as (path & Hne & Hall & -> & Hout).
  simpl qualify. unfold get_setting.
  rewrite parse_key_join by assumption.
  destruct Hout as [[v ->]|[arg ->]]; split;
    try discriminate; [left|right]; eexists; reflexivity.
Qed.

Lemma keys_read_from_defaults_witness :
  ((exists v, get_setting (Schema.defaults SCHEMA) "user.email" Tobject
              = Returns v)
   \/ (exists arg, get_setting (Schema.defaults SCHEMA) "user.email" Tobject
                   = Raises (KeyError arg)))
  /\ get_setting (Schema.defaults SCHEMA) "user.email" Tobject
     <> Raises InvalidKey.
Proof.
  apply (keys_read_from_defaults SCHEMA "user.email").
  - reflexivity.
  - vm_compute. tauto.
Defined.

(** ** Schemas whose sibling keys are distinct *)

Lemma distinct_cons : forall x l,
  distinct (x :: l) = true <-> ~ In x l /\ distinct l = true.
Proof.
  intros x l. simpl. rewrite andb_true_iff, negb_true_iff. split.
  - intros [Hx Hl]. split; auto. intros Hin.
    assert (existsb (String.eqb x) l = true).
    { apply existsb_exists. exists x. split; auto. apply String.eqb_refl. }
    congruence.
  - intros [Hx Hl]. split; auto.
    destruct (existsb (String.eqb x) l) eqn:E; auto.
    apply existsb_exists in E as (y & Hy & Hxy).
    apply String.eqb_eq in Hxy. subst. contradiction.
Qed.

Lemma distinct_last_with_key : forall schema d,
  distinct (map SchemaDict.key schema) = true ->
  In d schema ->
  last_with_key (SchemaDict.key d) schema = Some d.
Proof.
  induction schema as [|d0 schema IH]; intros d Hdis Hin; [destruct Hin|].
  change (map SchemaDict.key (d0 :: schema))
    with (SchemaDict.key d0 :: map SchemaDict.key schema) in Hdis.
  apply distinct_cons in Hdis as [Hnot Hdis]. simpl.
  destruct Hin as [->|Hin].
  - destruct (last_with_key (SchemaDict.key d) schema) as [d'|] eqn:E.
    + apply last_with_key_Some in E as [Hk Hd'].
      exfalso. apply Hnot. rewrite <- Hk. now apply in_map.
    + now rewrite String.eqb_refl.
  - now rewrite (IH d Hdis Hin).
Qed.

(** With distinct keys the loop appends one entry per descriptor. *)
Lemma build_loop_distinct : forall p fields acc,
  distinct (map SchemaDict.key fields) = true ->
  (forall f, In f fields -> ~ In (SchemaDict.key f) (dict_keys acc)) ->
  build_loop p fields acc
  = acc ++ map (fun f => (SchemaDict.key f,
                          Schema.build_settings
                            (qualify p (SchemaDict.key f)) f)) fields.
Proof.
  induction fields as [|f fields IH]; intros acc Hdis Hfresh.
  - simpl. now rewrite app_nil_r.
  - change (map SchemaDict.key (f :: fields))
      with (SchemaDict.key f :: map SchemaDict.key fields) in Hdis.
    apply distinct_cons in Hdis as [Hnot Hdis]. simpl.
    rewrite setitem_fresh by (apply Hfresh; now left).
    rewrite IH; auto.
    + now rewrite <- app_assoc.
    + intros g Hg. unfold dict_keys. rewrite map_app, in_app_iff. simpl.
      intros [Hin|[Heq|[]]].
      * apply (Hfresh g); [now right|exact Hin].
      * apply Hnot. rewrite Heq. now apply in_map.
Qed.

Lemma values_build_loop_distinct : forall p fields,
  distinct (map SchemaDict.key fields) = true ->
  values (build_loop p fields [])
  = map (fun f => Schema.build_settings (qualify p (SchemaDict.key f)) f)
      fields.
Proof.
  intros p fields Hdis. rewrite build_loop_distinct; auto.
  simpl. unfold values. rewrite map_map. reflexivity.
Qed.

Lemma flat_map_map : forall (A B C : Type) (f : A -> B) (g : B -> list C) l,
  flat_map g (map f l) = flat_map (fun x => g (f x)) l.
Proof.
  induction l as [|x l IH]; simpl; congruence.
Qed.

Lemma flat_map_ext_Forall :
  forall (A B : Type) (f g : A -> list B) (l : list A),
    Forall (fun x => f x = g x) l -> flat_map f l = flat_map g l.
Proof.
  induction 1 as [|x l Hx Hl IH]; simpl; congruence.
Qed.

(** The keys below a compiled node are the terminal keys of its
    descriptor. *)
Lemma get_keys_terminal_keys : forall d,
  unique_keys d = true ->
  forall name,
    Schema.get_keys (Schema.build_settings name d) = terminal_keys name d.
Proof.
  induction d as [k t ty h df fs v IH] using SchemaDict_nested_ind.
  intros Hu name. rewrite get_keys_build_settings. simpl in *.
  destruct fs as [[|f l]|]; try reflexivity.
  destruct (String.eqb ty "object"); [|reflexivity].
  apply andb_true_iff in Hu as [Hdis Hall].
  rewrite values_build_loop_distinct by assumption.
  rewrite flat_map_map. apply flat_map_ext_Forall.
  rewrite forallb_forall in Hall. rewrite Forall_forall in IH |- *.
  intros x Hx. simpl. apply IH; auto.
Qed.

Lemma keys_terminal_keys : forall schema,
  schema_unique_keys schema = true ->
  Schema.keys schema = schema_terminal_keys schema.
Proof.
  intros schema Hu. unfold schema_unique_keys in Hu.
  apply andb_true_iff in Hu as [Hdis Hall].
  unfold Schema.keys, Schema.settings_map, schema_terminal_keys.
  rewrite settings_map_loop_eq, values_build_loop_distinct by assumption.
  rewrite flat_map_map. apply flat_map_ext_Forall.
  rewrite forallb_forall in Hall. apply Forall_forall.
  intros d Hd. simpl. apply get_keys_terminal_keys. auto.
Qed.

(** C7, as the code has it. For a schema definition whose sibling keys
    are distinct, [Schema.keys] is the sequence, depth first and in
    declaration order, of the fully qualified keys of the nodes at which
    the traversal stops: the nodes that are not an [object], and the
    [object] nodes that have no fields. *)
Theorem keys_are_terminal_keys :
  forall schema : list SchemaDict.t,
    schema_unique_keys schema = true ->
    Schema.keys schema = schema_terminal_keys schema.
Proof.
  intros schema Hu. now apply keys_terminal_keys.
Qed.

Lemma keys_are_terminal_keys_witness :
  Schema.keys SCHEMA = schema_terminal_keys SCHEMA.
Proof.
  apply (keys_are_terminal_keys SCHEMA). reflexivity.
Defined.

(** C7 as stated fails on a group without fields: its key is among
    [Schema.keys], and it is not the key of a leaf. *)
Lemma keys_include_childless_object :
  Schema.keys childless_group = ["a"]
  /\ spec_keys childless_group = []
  /\ Schema.keys childless_group <> spec_keys childless_group.
Proof.
  repeat split. discriminate.
Qed.

(** ** Defaults *)

Lemma getitem_set_defaults_silent : forall k schema settings,
  (forall d, In d schema -> SchemaDict.key d = k -> default_value d = None) ->
  getitem (Schema.set_defaults schema settings) k = getitem settings k.
Proof.
  induction schema as [|d schema IH]; intros settings H; simpl; auto.
  rewrite IH by (intros; apply H; simpl; auto).
  rewrite set_default_eq.
  destruct (default_value d) as [v|] eqn:E; auto.
  apply getitem_setitem_neq. intros Hk.
  rewrite (H d) in E; simpl; auto. discriminate.
Qed.

Lemma distinct_key_inj : forall schema d d',
  distinct (map SchemaDict.key schema) = true ->
  In d schema -> In d' schema ->
  SchemaDict.key d' = SchemaDict.key d -> d' = d.
Proof.
  intros schema d d' Hdis Hd Hd' Hk.
  pose proof (distinct_last_with_key schema d Hdis Hd) as E.
  pose proof (distinct_last_with_key schema d' Hdis Hd') as E'.
  rewrite Hk in E'. congruence.
Qed.

(** With distinct keys, the entry of a descriptor in the defaults is
    what its own pass stores. *)
Lemma getitem_defaults_distinct : forall schema d,
  distinct (map SchemaDict.key schema) = true ->
  In d schema ->
  getitem (Schema.defaults schema) (SchemaDict.key d) = default_value d.
Proof.
  intros schema d Hdis Hd.
  destruct (default_value d) as [v|] eqn:E.
  - eapply getitem_defaults_last; eauto using distinct_last_with_key.
  - unfold Schema.defaults. rewrite getitem_set_defaults_silent; auto.
    intros d' Hd' Hk.
    now rewrite (distinct_key_inj schema d d' Hdis Hd Hd' Hk).
Qed.

(** C3, as the code has it. In a schema definition whose keys are
    distinct, the defaults have a nested mapping under the key of an
    [object] node exactly when the node has a non-empty [fields] list,
    and that mapping is the defaults of the fields, whether or not any
    of them declares a default; an [object] node with no fields has no
    entry. *)
Theorem defaults_object_entry :
  forall (schema : list SchemaDict.t) (o : SchemaDict.t),
    distinct (map SchemaDict.key schema) = true ->
    In o schema ->
    SchemaDict.type o = "object" ->
    getitem (Schema.defaults schema) (SchemaDict.key o)
    = match SchemaDict.fields o with
      | Some ((_ :: _) as fs) => Some (PDict (Schema.defaults fs))
      | _ => None
      end.
Proof.
  intros schema o Hdis Ho Hty.
  rewrite getitem_defaults_distinct by assumption.
  unfold default_value. rewrite Hty. reflexivity.
Qed.

Lemma defaults_object_entry_witness :
  getitem (Schema.defaults nested_empty) "a" = Some (PDict [])
  /\ getitem (Schema.defaults SCHEMA) "user"
     = Some (PDict [("name", PStr "$USER"); ("email", PStr "")]).
Proof.
  split.
  - apply (defaults_object_entry nested_empty
             (SchemaDict.mk "a" "A" "object" None None
                (Some [SchemaDict.mk "b" "B" "object" None None None None])
                None)).
    + reflexivity.
    + simpl. tauto.
    + reflexivity.
  - apply (defaults_object_entry SCHEMA
             (group "user" "User information" "Your details."
                [ leaf "name" "Your name" None "string" (PStr "$USER") None;
                  leaf "email" "Your email" None "string" (PStr "")
                    (Some [PDict [("type", PStr "is_email")]]) ])).
    + reflexivity.
    + simpl. tauto.
    + reflexivity.
Defined.

(** C3 as stated fails on [nested_empty]: no node below the group [a]
    declares a default, and the defaults are [{"a": {}}]. *)
Lemma defaults_keep_group_without_defaults :
  exists o,
    In o nested_empty
    /\ SchemaDict.type o = "object"
    /\ declares_default o = false
    /\ Schema.defaults nested_empty = [("a", PDict [])]
    /\ getitem (Schema.defaults nested_empty) (SchemaDict.key o)
       = Some (PDict []).
Proof.
  eexists. split; [left; reflexivity|]. repeat split.
Qed.

(** ** Reading a declared default back *)

Lemma dot_free_key : forall schema d,
  schema_dot_free schema = true -> In d schema ->
  no_dot (SchemaDict.key d) = true.
Proof.
  intros schema d H Hd. unfold schema_dot_free in H.
  rewrite forallb_forall in H. specialize (H d Hd).
  destruct d; simpl in *. apply andb_true_iff in H. tauto.
Qed.

Lemma dot_free_fields : forall schema d fs,
  schema_dot_free schema = true -> In d schema ->
  SchemaDict.fields d = Some fs -> schema_dot_free fs = true.
Proof.
  intros schema d fs H Hd E. unfold schema_dot_free in H.
  rewrite forallb_forall in H. specialize (H d Hd).
  destruct d; simpl in *. subst. apply andb_true_iff in H. tauto.
Qed.

Lemma unique_keys_fields : forall schema d fs,
  schema_unique_keys schema = true -> In d schema ->
  SchemaDict.fields d = Some fs -> schema_unique_keys fs = true.
Proof.
  intros schema d fs H Hd E. unfold schema_unique_keys in H.
  apply andb_true_iff in H as [_ H].
  rewrite forallb_forall in H. specialize (H d Hd).
  destruct d; simpl in *. subst. exact H.
Qed.

Lemma declared_default_loop : forall schema key v T,
  declared_default schema key v ->
  schema_unique_keys schema = true ->
  schema_dot_free schema = true ->
  v <> PNone ->
  isinstance v T = true ->
  get_setting_loop (loop_last (parse_key key)) (Schema.defaults schema) T
  = Return v.
Proof.
  intros schema key v T Hdecl.
  induction Hdecl as [schema d v Hd Hty Hdef
                     |schema o fs key v Ho Hty Hfs Hdecl IH];
    intros Hu Hdf Hv HT.
  - rewrite parse_key_no_dot by eauto using dot_free_key. simpl.
    rewrite getitem_defaults_distinct;
      [|unfold schema_unique_keys in Hu; apply andb_true_iff in Hu; tauto
       |assumption].
    unfold default_value. rewrite Hty, Hdef.
    destruct v; try congruence; simpl; now rewrite HT.
  - rewrite parse_key_qualified by eauto using dot_free_key.
    rewrite loop_last_more by apply split_not_nil.
    cbn [get_setting_loop].
    rewrite getitem_defaults_distinct;
      [|unfold schema_unique_keys in Hu; apply andb_true_iff in Hu; tauto
       |assumption].
    unfold default_value. rewrite Hty, Hfs.
    destruct fs as [|f fs].
    + inversion Hdecl; subst; simpl in *; tauto.
    + apply IH; eauto using unique_keys_fields, dot_free_fields.
Qed.

(** C6. In a schema whose sibling keys are distinct and have no
    separator in them, for every leaf with the dotted key [key] that
    declares a default [d] other than [None], and for every type [T]
    that [d] is an instance of, reading [key] as a [T] from the defaults
    returns exactly [d].  [get_setting] only reads the tree it is given,
    so every further read of the same defaults returns [d] again. *)
Theorem declared_default_round_trip :
  forall (schema : list SchemaDict.t) (key : string) (d : pyobj)
         (T : pytype),
    schema_unique_keys schema = true ->
    schema_dot_free schema = true ->
    declared_default schema key d ->
    d <> PNone ->
    isinstance d T = true ->
    let defaults := Schema.defaults schema in
    get_setting defaults key T = Returns d
    /\ (forall n, Forall (fun r => r = Returns d)
                    (repeat (get_setting defaults key T) n)).
Proof.
  intros schema key d T Hu Hdf Hdecl Hd HT defaults.
  assert (E : get_setting defaults key T = Returns d).
  { unfold get_setting, defaults.
    now rewrite (declared_default_loop T Hdecl Hu Hdf Hd HT). }
  split; [exact E|].
  intros n. apply Forall_forall. intros r Hr.
  apply repeat_spec in Hr. congruence.
Qed.

Lemma declared_default_round_trip_witness :
  let defaults := Schema.defaults SCHEMA in
  get_setting defaults "ui.column-width" Tint = Returns (PInt 100)
  /\ (forall n, Forall (fun r => r = Returns (PInt 100))
                  (repeat (get_setting defaults "ui.column-width" Tint) n)).
Proof.
  apply (@declared_default_round_trip SCHEMA "ui.column-width" (PInt 100)
           Tint).
  - reflexivity.
  - reflexivity.
  - apply (@declared_below SCHEMA
             (group "ui" "User interface settings"
                "The following settings allow you to customize the look and feel of the User Interface."
                [ui_column; ui_column_width; ui_theme])
             [ui_column; ui_column_width; ui_theme]
             "column-width" (PInt 100)).
    + simpl. tauto.
    + reflexivity.
    + reflexivity.
    + apply (@declared_here [ui_column; ui_column_width; ui_theme]
               ui_column_width (PInt 100)).
      * simpl. tauto.
      * reflexivity.
      * reflexivity.
  - discriminate.
  - reflexivity.
Defined.

(* ================================================================== *)
(** * Further properties of the code *)

(** ** [parse_key] *)

Lemma join_split : forall key : string, join (parse_key key) = key.
Proof.
  unfold parse_key.
  induction key as [|c key IH]; simpl; [reflexivity|].
  destruct (Ascii.eqb_spec c ".") as [->|Hc].
  - pose proof (split_not_nil "." key) as Hne.
    destruct (split "." key) as [|w ws]; [congruence|].
    change (join ("" :: w :: ws)) with ("" ++ "." ++ join (w :: ws))%string.
    rewrite IH. reflexivity.
  - destruct (split "." key) as [|w ws] eqn:E.
    + exfalso. exact (split_not_nil _ _ E).
    + destruct ws as [|w' ws]; simpl in *; congruence.
Qed.

(** Joining the segments of a key with the separator gives the key
    back. *)
Theorem join_parse_key : forall key : string, join (parse_key key) = key.
Proof.
  exact join_split.
Qed.

Lemma split_segments : forall key : string,
  Forall (fun segment => no_dot segment = true) (parse_key key)
  /\ length (parse_key key) = S (count_dots key).
Proof.
  unfold parse_key.
  induction key as [|c key [IHall IHlen]]; simpl.
  - split; [repeat constructor|reflexivity].
  - destruct (Ascii.eqb c ".") eqn:Ec; simpl.
    + split; [constructor; auto|now rewrite IHlen].
    + destruct (split "." key) as [|w ws]; simpl in *; [discriminate|].
      inversion IHall; subst. split; [|assumption].
      constructor; [|assumption]. simpl. now rewrite Ec.
Qed.

(** The segments of a key have no separator in them, and there is one
    more segment than there are separators in the key. *)
Theorem parse_key_segments : forall key : string,
  Forall (fun segment => no_dot segment = true) (parse_key key)
  /\ length (parse_key key) = S (count_dots key).
Proof.
  exact split_segments.
Qed.

(** A non-empty path of segments without separator is what [parse_key]
    makes of the joined key. *)
Theorem parse_key_of_join : forall path : list string,
  path <> [] ->
  Forall (fun segment => no_dot segment = true) path ->
  parse_key (join path) = path.
Proof.
  intros path Hne Hall. now apply parse_key_join.
Qed.

Lemma parse_key_of_join_witness :
  parse_key (join ["accounts"; "anthropic"; "apikey"])
  = ["accounts"; "anthropic"; "apikey"].
Proof.
  apply (@parse_key_of_join ["accounts"; "anthropic"; "apikey"]).
  - discriminate.
  - repeat constructor.
Defined.

(** ** [get_setting] *)

Lemma get_setting_loop_Return : forall path settings T v,
  path <> [] ->
  (get_setting_loop (loop_last path) settings T = Return v
   <-> lookup_path settings path = Some v /\ isinstance v T = true).
Proof.
  induction path as [|k path IH]; intros settings T v Hne; [congruence|].
  destruct path as [|k' path].
  - simpl. destruct (getitem settings k) as [r|].
    + destruct (isinstance r T) eqn:E; simpl; split.
      * intros H; inversion H; subst. auto.
      * intros [H _]; congruence.
      * discriminate.
      * intros [H H']. inversion H; subst. congruence.
    + split; [discriminate|intros [H _]; discriminate].
  - rewrite loop_last_more by discriminate.
    cbn [get_setting_loop lookup_path].
    destruct (getitem settings k) as [[| | | | |sub]|];
      try (split; [discriminate|intros [H _]; discriminate]).
    apply IH. discriminate.
Qed.

Lemma get_setting_loop_InvalidValue : forall path settings T T' found,
  path <> [] ->
  (get_setting_loop (loop_last path) settings T
   = Raise (InvalidValue T' found)
   <-> T' = T /\ lookup_path settings path = Some found
       /\ isinstance found T = false).
Proof.
  induction path as [|k path IH]; intros settings T T' found Hne;
    [congruence|].
  destruct path as [|k' path].
  - simpl. destruct (getitem settings k) as [r|].
    + destruct (isinstance r T) eqn:E; simpl; split.
      * discriminate.
      * intros (_ & H & H'). inversion H; subst. congruence.
      * intros H; inversion H; subst. auto.
      * intros (-> & H & _). congruence.
    + split; [discriminate|intros (_ & H & _); discriminate].
  - rewrite loop_last_more by discriminate.
    cbn [get_setting_loop lookup_path].
    destruct (getitem settings k) as [[| | | | |sub]|];
      try (split; [discriminate|intros (_ & H & _); discriminate]).
    apply IH. discriminate.
Qed.

Lemma get_setting_loop_KeyError : forall path settings T arg,
  get_setting_loop (loop_last path) settings T = Raise (KeyError arg) ->
  In arg path.
Proof.
  induction path as [|k path IH]; intros settings T arg H; [discriminate|].
  destruct path as [|k' path].
  - simpl in H. destruct (getitem settings k) as [r|].
    + destruct (negb (isinstance r T)); discriminate.
    + inversion H. now left.
  - rewrite loop_last_more in H by discriminate.
    cbn [get_setting_loop] in H.
    destruct (getitem settings k) as [[| | | | |sub]|]; try discriminate.
    + right. eapply IH; eauto.
    + inversion H. now left.
Qed.

Lemma get_setting_outcome : forall settings key T,
  get_setting settings key T
  = match get_setting_loop (loop_last (parse_key key)) settings T with
    | Return v => Returns v
    | Raise e => Raises e
    | Normal => Raises (KeyError key)
    end.
Proof.
  reflexivity.
Qed.

Lemma get_setting_Returns :
  forall (settings : dict pyobj) (key : string) (T : pytype) (v : pyobj),
    get_setting settings key T = Returns v
    <-> lookup_path settings (parse_key key) = Some v
        /\ isinstance v T = true.
Proof.
  intros settings key T v.
  rewrite <- (@get_setting_loop_Return (parse_key key) settings T v)
    by apply split_not_nil.
  rewrite get_setting_outcome.
  destruct (get_setting_loop (loop_last (parse_key key)) settings T);
    split; intros H; inversion H; reflexivity.
Qed.

(** [get_setting] returns [v] exactly when following the segments of the
    key through the nested mappings reaches [v], and [v] is an instance
    of the expected type. *)
Theorem get_setting_returns_iff :
  forall (settings : dict pyobj) (key : string) (T : pytype) (v : pyobj),
    get_setting settings key T = Returns v
    <-> lookup_path settings (parse_key key) = Some v
        /\ isinstance v T = true.
Proof.
  exact get_setting_Returns.
Qed.

(** [get_setting] raises [InvalidValue] exactly when the path of the key
    reaches a value that is not an instance of the expected type; the
    exception reports that type and that value.  With the default
    expected type [object] it is never raised. *)
Theorem get_setting_InvalidValue_iff :
  forall (settings : dict pyobj) (key : string) (T T' : pytype)
         (found : pyobj),
    (get_setting settings key T = Raises (InvalidValue T' found)
     <-> T' = T /\ lookup_path settings (parse_key key) = Some found
         /\ isinstance found T = false)
    /\ get_setting settings key Tobject <> Raises (InvalidValue T' found).
Proof.
  intros settings key T T' found.
  assert (G : forall T0,
             get_setting settings key T0 = Raises (InvalidValue T' found)
             <-> T' = T0 /\ lookup_path settings (parse_key key) = Some found
                 /\ isinstance found T0 = false).
  { intros T0.
    rewrite <- (@get_setting_loop_InvalidValue (parse_key key) settings T0
                  T' found) by apply split_not_nil.
    rewrite get_setting_outcome.
    destruct (get_setting_loop (loop_last (parse_key key)) settings T0);
      split; intros H; inversion H; reflexivity. }
  split; [apply G|].
  intros H. apply G in H as (_ & _ & H). discriminate.
Qed.

(** The argument of a [KeyError] raised by [get_setting] is one of the
    segments of the key: the one that was missing. *)
Theorem get_setting_KeyError_segment :
  forall (settings : dict pyobj) (key : string) (T : pytype) (arg : string),
    get_setting settings key T = Raises (KeyError arg) ->
    In arg (parse_key key).
Proof.
  intros settings key T arg H. rewrite get_setting_outcome in H.
  pose proof (@get_setting_loop_not_Normal (parse_key key) settings T
                (split_not_nil _ _)) as Hn.
  destruct (get_setting_loop (loop_last (parse_key key)) settings T) eqn:E;
    [congruence|discriminate|].
  inversion H; subst. eapply get_setting_loop_KeyError; eauto.
Qed.

Lemma get_setting_KeyError_segment_witness :
  In "theme" (parse_key "ui.theme").
Proof.
  apply (@get_setting_KeyError_segment
           (Schema.defaults scenario_schema) "ui.theme" Tobject "theme").
  reflexivity.
Defined.

(** Reading below a group: when the first segment has no separator and
    names a mapping, reading the qualified key from the tree is reading
    the rest of the key from that mapping. *)
Theorem get_setting_descends :
  forall (settings sub : dict pyobj) (a rest : string) (T : pytype),
    no_dot a = true ->
    getitem settings a = Some (PDict sub) ->
    get_setting settings (a ++ "." ++ rest) T = get_setting sub rest T.
Proof.
  intros settings sub a rest T Ha Hsub.
  rewrite !get_setting_outcome.
  rewrite parse_key_qualified by assumption.
  rewrite loop_last_more by apply split_not_nil.
  cbn [get_setting_loop]. rewrite Hsub.
  pose proof (@get_setting_loop_not_Normal (parse_key rest) sub T
                (split_not_nil _ _)) as Hn.
  destruct (get_setting_loop (loop_last (parse_key rest)) sub T);
    congruence.
Qed.

Lemma get_setting_descends_witness :
  get_setting (Schema.defaults SCHEMA) ("accounts" ++ "." ++ "openai.apikey")
    Tstr
  = get_setting [("anthropic", PDict [("apikey", PStr "$ANTHROPIC_API_KEY")]);
                 ("openai", PDict [("apikey", PStr "$OPENAI_API_KEY")])]
      "openai.apikey" Tstr.
Proof.
  apply (@get_setting_descends (Schema.defaults SCHEMA)); reflexivity.
Defined.

(** A key of two segments or more whose first segment names a value that
    is no mapping fails the [assert] of [get_setting]. *)
Theorem get_setting_through_scalar :
  forall (settings : dict pyobj) (key : string) (T : pytype) (v : pyobj),
    no_dot key = false ->
    getitem settings (first_segment key) = Some v ->
    isinstance v Tdict = false ->
    get_setting settings key T = Raises AssertionError.
Proof.
  intros settings key T v Hdot Hget Hv.
  rewrite get_setting_outcome. unfold first_segment in Hget.
  destruct (parse_key key) as [|k rest] eqn:E;
    [exfalso; exact (split_not_nil _ _ E)|].
  destruct rest as [|k' rest].
  - exfalso.
    destruct (split_segments key) as [Hall _].
    rewrite E in Hall. inversion Hall; subst.
    pose proof (join_split key) as J. rewrite E in J. simpl in J.
    congruence.
  - rewrite loop_last_more by discriminate. cbn [get_setting_loop].
    simpl in Hget. rewrite Hget.
    destruct v; try reflexivity. discriminate.
Qed.

Lemma get_setting_through_scalar_witness :
  get_setting [("name", PStr "$USER"); ("email", PStr "")] "name.first"
    Tobject
  = Raises AssertionError.
Proof.
  apply (@get_setting_through_scalar
           [("name", PStr "$USER"); ("email", PStr "")]
           "name.first" Tobject (PStr "$USER")); reflexivity.
Defined.

(** Writing another top-level entry does not change what a key reads:
    after [settings[k] = v], a key whose first segment is not [k] reads
    as before. *)
Theorem get_setting_after_other_write :
  forall (settings : dict pyobj) (k key : string) (v : pyobj) (T : pytype),
    first_segment key <> k ->
    get_setting (setitem k v settings) key T = get_setting settings key T.
Proof.
  intros settings k key v T Hne. rewrite !get_setting_outcome.
  unfold first_segment in Hne.
  destruct (parse_key key) as [|k0 rest] eqn:E;
    [exfalso; exact (split_not_nil _ _ E)|].
  simpl in Hne.
  assert (Hg : getitem (setitem k v settings) k0 = getitem settings k0)
    by (apply getitem_setitem_neq; congruence).
  destruct rest as [|k' rest].
  - simpl. now rewrite Hg.
  - rewrite loop_last_more by discriminate. cbn [get_setting_loop].
    now rewrite Hg.
Qed.

Lemma get_setting_after_other_write_witness :
  get_setting (setitem "bogus" (PInt 1) (Schema.defaults SCHEMA))
    "ui.column" Tbool
  = get_setting (Schema.defaults SCHEMA) "ui.column" Tbool.
Proof.
  apply (@get_setting_after_other_write (Schema.defaults SCHEMA) "bogus"
           "ui.column" (PInt 1) Tbool).
  discriminate.
Defined.

(** ** [Schema.set_value] *)

Lemma dotted_key_segments : forall key,
  no_dot key = false ->
  exists k k' rest, parse_key key = k :: k' :: rest.
Proof.
  intros key Hdot.
  destruct (parse_key key) as [|k [|k' rest]] eqn:E.
  - exfalso. exact (split_not_nil _ _ E).
  - exfalso.
    destruct (split_segments key) as [Hall _].
    rewrite E in Hall. inversion Hall; subst.
    pose proof (join_split key) as J. rewrite E in J. simpl in J.
    congruence.
  - now exists k, k', rest.
Qed.

(** No call of [set_value] returns: whatever the schema definition, the
    values tree, the key and the value, it raises [InvalidKey]. *)
Theorem set_value_never_returns :
  forall (schema : list SchemaDict.t) (settings : dict pyobj)
         (key : string) (value : pyobj),
    snd (Schema.set_value schema settings key value) = Raises InvalidKey.
Proof.
  intros. apply set_value_raises_InvalidKey.
Qed.

(** What [set_value] leaves in the values tree: a key without separator
    has been assigned at the top of the tree before the exception, a key
    with a separator leaves the tree as it was. *)
Theorem set_value_tree :
  forall (schema : list SchemaDict.t) (settings : dict pyobj)
         (key : string) (value : pyobj),
    fst (Schema.set_value schema settings key value)
    = if no_dot key then setitem key value settings else settings.
Proof.
  intros schema settings key value.
  destruct (no_dot key) eqn:Hdot.
  - now apply set_value_single_stored.
  - destruct (dotted_key_segments key Hdot) as (k & k' & rest & E).
    apply (@set_value_dotted_unchanged schema settings key value k
             (k' :: rest) E).
    discriminate.
Qed.

(** A key without separator is rejected and stored all the same: the
    call raises [InvalidKey], and reading the key from the tree
    afterwards returns the value. *)
Theorem set_value_rejected_but_readable :
  forall (schema : list SchemaDict.t) (settings : dict pyobj)
         (key : string) (value : pyobj) (T : pytype),
    no_dot key = true ->
    isinstance value T = true ->
    snd (Schema.set_value schema settings key value) = Raises InvalidKey
    /\ get_setting (fst (Schema.set_value schema settings key value)) key T
       = Returns value.
Proof.
  intros schema settings key value T Hdot HT. split.
  - apply set_value_raises_InvalidKey.
  - rewrite set_value_single_stored by assumption.
    rewrite get_setting_outcome, parse_key_no_dot by assumption.
    simpl. rewrite getitem_setitem_eq, HT. reflexivity.
Qed.

Lemma set_value_rejected_but_readable_witness :
  snd (Schema.set_value SCHEMA (Schema.defaults SCHEMA) "ui" (PInt 7))
  = Raises InvalidKey
  /\ get_setting
       (fst (Schema.set_value SCHEMA (Schema.defaults SCHEMA) "ui" (PInt 7)))
       "ui" Tint
     = Returns (PInt 7).
Proof.
  apply (@set_value_rejected_but_readable SCHEMA (Schema.defaults SCHEMA)
           "ui" (PInt 7) Tint); reflexivity.
Defined.

(** ** [Schema.defaults] *)

Lemma getitem_set_defaults_origin : forall k v schema settings,
  getitem (Schema.set_defaults schema settings) k = Some v ->
  getitem settings k = Some v
  \/ exists d, In d schema /\ SchemaDict.key d = k
               /\ default_value d = Some v.
Proof.
  induction schema as [|d schema IH]; intros settings H; simpl in H.
  - now left.
  - apply IH in H as [H|(d' & Hd' & Hk & Hv)].
    + rewrite set_default_eq in H.
      destruct (default_value d) as [w|] eqn:E; [|now left].
      destruct (String.eqb_spec (SchemaDict.key d) k) as [Hk|Hk].
      * subst k. rewrite getitem_setitem_eq in H. inversion H; subst.
        right. exists d. simpl. auto.
      * rewrite getitem_setitem_neq in H by assumption. now left.
    + right. exists d'. simpl. auto.
Qed.

(** Every entry of the defaults comes from a descriptor of the schema
    with that key, and is never [None]: the entry of a leaf is the
    default that the leaf declares, the entry of a group is the defaults
    of its non-empty [fields] list. *)
Theorem defaults_entry_origin :
  forall (schema : list SchemaDict.t) (k : string) (v : pyobj),
    getitem (Schema.defaults schema) k = Some v ->
    v <> PNone
    /\ exists d,
         In d schema /\ SchemaDict.key d = k
         /\ if String.eqb (SchemaDict.type d) "object"
            then exists f fs, SchemaDict.fields d = Some (f :: fs)
                              /\ v = PDict (Schema.defaults (f :: fs))
            else SchemaDict.default d = Some v.
Proof.
  intros schema k v H. unfold Schema.defaults in H.
  apply getitem_set_defaults_origin in H as [H|(d & Hd & Hk & Hv)];
    [discriminate|].
  unfold default_value in Hv.
  destruct (String.eqb (SchemaDict.type d) "object") eqn:Ety.
  - destruct (SchemaDict.fields d) as [[|f fs]|] eqn:Ef; try discriminate.
    inversion Hv; subst. split; [discriminate|].
    exists d. rewrite Ety, Ef. repeat split; auto. now exists f, fs.
  - destruct (SchemaDict.default d) as [w|] eqn:Ed; [|discriminate].
    destruct (is_None w) eqn:En; simpl in Hv; [discriminate|].
    inversion Hv; subst. split.
    + intros ->. discriminate.
    + exists d. rewrite Ety. auto.
Qed.

Lemma defaults_entry_origin_witness :
  PInt 100 <> PNone
  /\ exists d,
       In d [ui_column; ui_column_width; ui_theme]
       /\ SchemaDict.key d = "column-width"
       /\ if String.eqb (SchemaDict.type d) "object"
          then exists f fs, SchemaDict.fields d = Some (f :: fs)
                            /\ PInt 100 = PDict (Schema.defaults (f :: fs))
          else SchemaDict.default d = Some (PInt 100).
Proof.
  apply (@defaults_entry_origin [ui_column; ui_column_width; ui_theme]
           "column-width" (PInt 100)).
  reflexivity.
Defined.

(** In a schema definition whose keys are distinct, the defaults hold
    under the key of a leaf the default that the leaf declares, and have
    no entry for a leaf that declares none or declares [None]. *)
Theorem defaults_leaf_entry :
  forall (schema : list SchemaDict.t) (d : SchemaDict.t),
    distinct (map SchemaDict.key schema) = true ->
    In d schema ->
    String.eqb (SchemaDict.type d) "object" = false ->
    getitem (Schema.defaults schema) (SchemaDict.key d)
    = match SchemaDict.default d with
      | Some v => if is_None v then None else Some v
      | None => None
      end.
Proof.
  intros schema d Hdis Hd Hty.
  rewrite getitem_defaults_distinct by assumption.
  unfold default_value. rewrite Hty.
  destruct (SchemaDict.default d) as [v|]; [|reflexivity].
  destruct (is_None v); reflexivity.
Qed.

Lemma defaults_leaf_entry_witness :
  getitem (Schema.defaults [ui_column; ui_column_width; ui_theme]) "theme"
  = Some (PStr "dracula").
Proof.
  apply (@defaults_leaf_entry [ui_column; ui_column_width; ui_theme]
           ui_theme).
  - reflexivity.
  - simpl. tauto.
  - reflexivity.
Defined.

Lemma dict_keys_app : forall (V : Type) (a b : dict V),
  dict_keys (a ++ b) = dict_keys a ++ dict_keys b.
Proof.
  intros. unfold dict_keys. apply map_app.
Qed.

Lemma dict_keys_default_entry : forall d,
  dict_keys (default_entry d)
  = if stores_entry d then [SchemaDict.key d] else [].
Proof.
  intros d. unfold default_entry, default_value, stores_entry.
  destruct (String.eqb (SchemaDict.type d) "object").
  - destruct (SchemaDict.fields d) as [[|f fs]|]; reflexivity.
  - destruct (SchemaDict.default d) as [v|]; [|reflexivity].
    destruct (is_None v); reflexivity.
Qed.

(** With distinct keys, the loop of [set_defaults] appends the entries
    in the order of the descriptors. *)
Lemma set_defaults_distinct : forall schema settings,
  distinct (map SchemaDict.key schema) = true ->
  (forall d, In d schema -> ~ In (SchemaDict.key d) (dict_keys settings)) ->
  Schema.set_defaults schema settings
  = settings ++ flat_map default_entry schema.
Proof.
  induction schema as [|d schema IH]; intros settings Hdis Hfresh.
  - simpl. now rewrite app_nil_r.
  - change (map SchemaDict.key (d :: schema))
      with (SchemaDict.key d :: map SchemaDict.key schema) in Hdis.
    apply distinct_cons in Hdis as [Hnot Hdis]. simpl.
    rewrite set_default_eq. unfold default_entry at 1.
    destruct (default_value d) as [v|].
    + rewrite setitem_fresh by (apply Hfresh; now left).
      rewrite IH; auto.
      * now rewrite <- app_assoc.
      * intros g Hg. rewrite dict_keys_app, in_app_iff. simpl.
        intros [Hin|[Heq|[]]].
        -- apply (Hfresh g); [now right|exact Hin].
        -- apply Hnot. rewrite Heq. now apply in_map.
    + apply IH; auto. intros g Hg. apply Hfresh. now right.
Qed.

(** In a schema definition whose keys are distinct, the keys of the
    defaults are, in declaration order, the keys of the descriptors that
    store an entry: the groups with fields and the leaves with a default
    that is not [None]. *)
Theorem defaults_keys_in_declaration_order :
  forall schema : list SchemaDict.t,
    distinct (map SchemaDict.key schema) = true ->
    dict_keys (Schema.defaults schema)
    = map SchemaDict.key (filter stores_entry schema).
Proof.
  intros schema Hdis. unfold Schema.defaults.
  rewrite set_defaults_distinct by (auto; intros d _ []).
  simpl. clear Hdis.
  induction schema as [|d schema IH]; [reflexivity|].
  simpl. rewrite dict_keys_app, dict_keys_default_entry, IH.
  destruct (stores_entry d); reflexivity.
Qed.

Lemma defaults_keys_in_declaration_order_witness :
  dict_keys (Schema.defaults SCHEMA)
  = map SchemaDict.key (filter stores_entry SCHEMA).
Proof.
  apply (@defaults_keys_in_declaration_order SCHEMA). reflexivity.
Defined.

(** When several descriptors have the same key, the entry of that key is
    what the last of them stores, if it stores an entry. *)
Theorem defaults_last_descriptor_wins :
  forall (schema : list SchemaDict.t) (k : string) (d : SchemaDict.t)
         (v : pyobj),
    last_with_key k schema = Some d ->
    default_entry d = [(k, v)] ->
    getitem (Schema.defaults schema) k = Some v.
Proof.
  intros schema k d v Hlast Hentry.
  eapply getitem_defaults_last; eauto.
  unfold default_entry in Hentry.
  destruct (default_value d); inversion Hentry; reflexivity.
Qed.

Lemma defaults_last_descriptor_wins_witness :
  getitem
    (Schema.defaults
       [ leaf "name" "Your name" None "string" (PStr "$USER") None;
         leaf "name" "Login" None "string" (PStr "$LOGNAME") None ])
    "name"
  = Some (PStr "$LOGNAME").
Proof.
  apply (@defaults_last_descriptor_wins
           [ leaf "name" "Your name" None "string" (PStr "$USER") None;
             leaf "name" "Login" None "string" (PStr "$LOGNAME") None ]
           "name"
           (leaf "name" "Login" None "string" (PStr "$LOGNAME") None)
           (PStr "$LOGNAME")); reflexivity.
Defined.

(** ** [Schema.settings_map] *)

Lemma subsettings_eq : forall s,
  subsettings s
  = s :: flat_map subsettings
           (values (match Setting.children s with
                    | Some c => c
                    | None => []
                    end)).
Proof.
  intros [k t ty h df v c]. simpl. f_equal.
  destruct c as [c|]; [|reflexivity].
  induction c as [|[k0 s0] c IH]; simpl; [reflexivity|].
  now rewrite IH.
Qed.

Lemma In_values : forall (V : Type) (d : dict V) (v : V),
  In v (values d) -> exists k, In (k, v) d.
Proof.
  intros V d v H. unfold values in H.
  apply in_map_iff in H as ([k v'] & Heq & Hin). simpl in Heq. subst.
  now exists k.
Qed.

(** Every node below a compiled descriptor is itself the compilation of
    a descriptor. *)
Lemma subsettings_built : forall d name s,
  In s (subsettings (Schema.build_settings name d)) ->
  exists name' d', s = Schema.build_settings name' d'.
Proof.
  induction d as [k t ty h df fs v IH] using SchemaDict_nested_ind.
  intros name s Hin. rewrite subsettings_eq in Hin.
  destruct Hin as [<-|Hin]; [eauto|].
  rewrite build_settings_children in Hin.
  unfold SchemaDict.get_fields in Hin. simpl in Hin.
  destruct (String.eqb ty "object"); [|destruct Hin].
  destruct fs as [l|]; [|destruct Hin].
  apply in_flat_map in Hin as (c & Hc & Hs).
  apply In_values in Hc as (k0 & Hc).
  apply build_loop_entry in Hc as (d' & Hlast & ->).
  apply last_with_key_Some in Hlast as [_ Hd'].
  rewrite Forall_forall in IH. eapply IH; eauto.
Qed.

Lemma all_settings_built : forall schema s,
  In s (all_settings schema) ->
  exists name d, s = Schema.build_settings name d.
Proof.
  intros schema s Hin. unfold all_settings in Hin.
  apply in_flat_map in Hin as (c & Hc & Hs).
  apply In_values in Hc as (k0 & Hc).
  unfold Schema.settings_map in Hc. rewrite settings_map_loop_eq in Hc.
  apply build_loop_entry in Hc as (d' & _ & ->).
  eapply subsettings_built; eauto.
Qed.

Lemma getitem_settings_map :
  forall (schema : list SchemaDict.t) (k : string),
    getitem (Schema.settings_map schema) k
    = match last_with_key k schema with
      | Some d => Some (Schema.build_settings k d)
      | None => None
      end.
Proof.
  intros schema k. unfold Schema.settings_map.
  rewrite settings_map_loop_eq.
  destruct (last_with_key k schema) as [d|] eqn:E.
  - erewrite getitem_build_loop_last by eassumption.
    apply last_with_key_Some in E as [-> _]. reflexivity.
  - now rewrite getitem_build_loop_other.
Qed.

(** Looking a key up in the compiled map gives the compilation, under
    that key as its name, of the last descriptor that has the key, and
    nothing when no descriptor has it. *)
Theorem settings_map_lookup :
  forall (schema : list SchemaDict.t) (k : string),
    getitem (Schema.settings_map schema) k
    = match last_with_key k schema with
      | Some d => Some (Schema.build_settings k d)
      | None => None
      end.
Proof.
  exact getitem_settings_map.
Qed.

(** In a schema definition whose keys are distinct, the keys of the
    compiled map are the keys of the descriptors in declaration order. *)
Theorem settings_map_keys_in_declaration_order :
  forall schema : list SchemaDict.t,
    distinct (map SchemaDict.key schema) = true ->
    dict_keys (Schema.settings_map schema) = map SchemaDict.key schema.
Proof.
  intros schema Hdis. unfold Schema.settings_map.
  rewrite settings_map_loop_eq, build_loop_distinct by (auto; intros d _ []).
  simpl. unfold dict_keys. rewrite map_map. reflexivity.
Qed.

Lemma settings_map_keys_in_declaration_order_witness :
  dict_keys (Schema.settings_map SCHEMA) = ["ui"; "user"; "accounts"].
Proof.
  apply (@settings_map_keys_in_declaration_order SCHEMA). reflexivity.
Defined.

(** At every depth of the compiled map, a node has no [children]
    attribute exactly when its type is not [object]: a group always
    carries a mapping, possibly empty, and a leaf never does. *)
Theorem compiled_children_iff_object :
  forall (schema : list SchemaDict.t) (s : Setting.t),
    In s (all_settings schema) ->
    (Setting.children s = None
     <-> String.eqb (Setting.type s) "object" = false).
Proof.
  intros schema s Hin.
  apply all_settings_built in Hin as (name & d & ->).
  rewrite build_settings_children, build_settings_type.
  destruct (String.eqb (SchemaDict.type d) "object"); split; congruence.
Qed.

Lemma compiled_children_iff_object_witness :
  Setting.children (Schema.build_settings "ui" (hd ui_column SCHEMA)) = None
  <-> String.eqb
        (Setting.type (Schema.build_settings "ui" (hd ui_column SCHEMA)))
        "object" = false.
Proof.
  apply (@compiled_children_iff_object SCHEMA).
  vm_compute. left. reflexivity.
Defined.

(** The compiled map is keyed consistently: a top-level node has its
    dictionary key as its [key], and at every depth the [key] of a child
    is the [key] of its parent, a separator, and the dictionary key under
    which the parent holds the child. *)
Theorem compiled_keys_qualified :
  forall schema : list SchemaDict.t,
    (forall k s, In (k, s) (Schema.settings_map schema) ->
                 Setting.key s = k)
    /\ (forall s children k child,
          In s (all_settings schema) ->
          Setting.children s = Some children ->
          In (k, child) children ->
          Setting.key child = (Setting.key s ++ "." ++ k)%string).
Proof.
  intros schema. split.
  - intros k s Hin. unfold Schema.settings_map in Hin.
    rewrite settings_map_loop_eq in Hin.
    apply build_loop_entry in Hin as (d & Hlast & ->).
    apply last_with_key_Some in Hlast as [Hk _].
    now rewrite build_settings_key.
  - intros s children k child Hs Hc Hin.
    apply all_settings_built in Hs as (name & d & ->).
    rewrite build_settings_children in Hc.
    destruct (String.eqb (SchemaDict.type d) "object"); [|discriminate].
    inversion Hc; subst children.
    apply build_loop_entry in Hin as (d' & Hlast & ->).
    apply last_with_key_Some in Hlast as [Hk _].
    rewrite !build_settings_key. simpl. now rewrite Hk.
Qed.

(** ** [Schema.keys] *)

Lemma under_refl : forall name, under name name.
Proof.
  intros name. now left.
Qed.

Lemma under_nested : forall name a k,
  under (name ++ "." ++ a) k -> under name k.
Proof.
  intros name a k [->|[rest ->]]; right.
  - now exists a.
  - exists (a ++ "." ++ rest)%string.
    change (String "." a) with ("." ++ a)%string.
    change (String "." rest) with ("." ++ rest)%string.
    change (String "." (a ++ "." ++ rest))
      with ("." ++ (a ++ "." ++ rest))%string.
    now rewrite !append_assoc.
Qed.

(** The keys below a compiled descriptor are its name or lie under it,
    and there is at least one. *)
Lemma get_keys_built : forall d name,
  Schema.get_keys (Schema.build_settings name d) <> []
  /\ forall k, In k (Schema.get_keys (Schema.build_settings name d)) ->
               under name k.
Proof.
  induction d as [k0 t ty h df fs v IH] using SchemaDict_nested_ind.
  intros name. rewrite get_keys_build_settings. simpl.
  assert (Hleaf : [name] <> []
                  /\ forall k, In k [name] -> under name k).
  { split; [discriminate|]. intros k [<-|[]]. apply under_refl. }
  destruct fs as [[|f l]|]; try exact Hleaf.
  destruct (String.eqb ty "object"); [|exact Hleaf].
  rewrite Forall_forall in IH. split.
  - pose proof (@build_loop_not_nil (Some name) (f :: l) []) as Hne.
    destruct (build_loop (Some name) (f :: l) []) as [|[k1 c] rest] eqn:E;
      [exfalso; apply Hne; [discriminate|reflexivity]|].
    assert (Hc : In (k1, c) (build_loop (Some name) (f :: l) []))
      by (rewrite E; now left).
    apply build_loop_entry in Hc as (d' & Hlast & ->).
    apply last_with_key_Some in Hlast as [_ Hd'].
    simpl. intros Happ. apply app_eq_nil in Happ as [Happ _].
    exact (proj1 (IH d' Hd' _) Happ).
  - intros k Hk. apply in_flat_map in Hk as (c & Hc & Hk).
    apply In_values in Hc as (k1 & Hc).
    apply build_loop_entry in Hc as (d' & Hlast & ->).
    apply last_with_key_Some in Hlast as [_ Hd'].
    apply (proj2 (IH d' Hd' _)) in Hk. simpl in Hk.
    exact (under_nested name (SchemaDict.key d') Hk).
Qed.

Lemma last_with_key_In : forall schema d,
  In d schema ->
  exists d', last_with_key (SchemaDict.key d) schema = Some d'.
Proof.
  intros schema d Hd.
  destruct (last_with_key (SchemaDict.key d) schema) as [d'|] eqn:E; eauto.
  exfalso. exact (last_with_key_None _ _ E Hd eq_refl).
Qed.

(** Every key of [Schema.keys] is the key of a top-level descriptor or
    lies under one. *)
Theorem keys_under_schema :
  forall (schema : list SchemaDict.t) (k : string),
    In k (Schema.keys schema) ->
    exists d, In d schema /\ under (SchemaDict.key d) k.
Proof.
  intros schema k Hk. unfold Schema.keys, Schema.settings_map in Hk.
  rewrite settings_map_loop_eq in Hk.
  apply in_flat_map in Hk as (s & Hs & Hk).
  apply In_values in Hs as (k0 & Hs).
  apply build_loop_entry in Hs as (d & Hlast & ->).
  apply last_with_key_Some in Hlast as [_ Hd].
  exists d. split; [assumption|].
  exact (proj2 (get_keys_built d _) k Hk).
Qed.

Lemma keys_under_schema_witness :
  exists d, In d SCHEMA /\ under (SchemaDict.key d) "accounts.openai.apikey".
Proof.
  apply (@keys_under_schema SCHEMA "accounts.openai.apikey").
  vm_compute. tauto.
Defined.

(** Every top-level descriptor is represented in [Schema.keys]: its key,
    or at least one key under it, is listed.  In particular the keys of
    a non-empty schema definition are not empty. *)
Theorem keys_cover_schema :
  forall (schema : list SchemaDict.t) (d : SchemaDict.t),
    In d schema ->
    exists k, In k (Schema.keys schema) /\ under (SchemaDict.key d) k.
Proof.
  intros schema d Hd.
  destruct (last_with_key_In schema d Hd) as [d' Hlast].
  pose proof (getitem_settings_map schema (SchemaDict.key d)) as Hget.
  rewrite Hlast in Hget. apply getitem_In in Hget.
  destruct (get_keys_built d' (SchemaDict.key d)) as [Hne Hund].
  destruct (Schema.get_keys
              (Schema.build_settings (SchemaDict.key d) d')) as [|k ks] eqn:E;
    [congruence|].
  exists k. split.
  - unfold Schema.keys. apply in_flat_map.
    exists (Schema.build_settings (SchemaDict.key d) d'). split.
    + unfold values. apply in_map_iff.
      now exists (SchemaDict.key d,
                  Schema.build_settings (SchemaDict.key d) d').
    + rewrite E. now left.
  - apply Hund. now left.
Qed.

Lemma keys_cover_schema_witness :
  exists k, In k (Schema.keys childless_group) /\ under "a" k.
Proof.
  apply (@keys_cover_schema childless_group
           (SchemaDict.mk "a" "A" "object" None None None None)).
  now left.
Defined.

Lemma append_inj_l : forall p a b : string,
  (p ++ a)%string = (p ++ b)%string -> a = b.
Proof.
  induction p as [|c p IH]; simpl; intros a b H; [assumption|].
  inversion H. auto.
Qed.

Lemma under_key_tail : forall name k,
  under name k -> exists x, key_tail x /\ k = (name ++ x)%string.
Proof.
  intros name k [->|[rest ->]].
  - exists EmptyString. split; [now left|]. now rewrite append_empty_r.
  - exists (String "." rest). split; [right; eauto|reflexivity].
Qed.

Lemma segment_unique : forall a b x y,
  no_dot a = true -> no_dot b = true -> key_tail x -> key_tail y ->
  (a ++ x)%string = (b ++ y)%string -> a = b.
Proof.
  induction a as [|c a IH]; intros b x y Ha Hb Hx Hy H.
  - destruct b as [|c' b]; [reflexivity|]. simpl in *.
    apply andb_true_iff in Hb as [Hc' _]. apply negb_true_iff in Hc'.
    destruct Hx as [->|[rest ->]]; [discriminate|].
    inversion H; subst. discriminate.
  - destruct b as [|c' b]; simpl in *.
    + apply andb_true_iff in Ha as [Hc _]. apply negb_true_iff in Hc.
      destruct Hy as [->|[rest ->]]; [discriminate|].
      inversion H; subst. discriminate.
    + apply andb_true_iff in Ha as [_ Ha].
      apply andb_true_iff in Hb as [_ Hb].
      inversion H; subst. f_equal. now apply (IH b x y).
Qed.

Lemma under_qualify_unique : forall p a b k,
  no_dot a = true -> no_dot b = true ->
  under (qualify p a) k -> under (qualify p b) k -> a = b.
Proof.
  intros p a b k Ha Hb Hka Hkb.
  apply under_key_tail in Hka as (x & Hx & ->).
  apply under_key_tail in Hkb as (y & Hy & E).
  destruct p as [n|]; simpl in E.
  - change (String "." a) with ("." ++ a)%string in E.
    change (String "." b) with ("." ++ b)%string in E.
    rewrite !append_assoc in E.
    apply append_inj_l in E. simpl in E. inversion E.
    now apply (@segment_unique a b x y).
  - now apply (@segment_unique a b x y).
Qed.

Lemma terminal_keys_under : forall d name k,
  unique_keys d = true -> In k (terminal_keys name d) -> under name k.
Proof.
  intros d name k Hu Hk. rewrite <- get_keys_terminal_keys in Hk by assumption.
  exact (proj2 (get_keys_built d name) k Hk).
Qed.

Lemma terminal_keys_NoDup_list : forall l,
  Forall (fun d => unique_keys d = true -> dot_free d = true ->
                   forall name, NoDup (terminal_keys name d)) l ->
  distinct (map SchemaDict.key l) = true ->
  forallb unique_keys l = true ->
  forallb dot_free l = true ->
  forall p,
    NoDup (flat_map (fun f => terminal_keys (qualify p (SchemaDict.key f)) f)
             l).
Proof.
  induction l as [|f l IHl]; intros HP Hdis Hu Hdf p; [constructor|].
  inversion HP as [|? ? Hf HPl]; subst.
  change (map SchemaDict.key (f :: l))
    with (SchemaDict.key f :: map SchemaDict.key l) in Hdis.
  apply distinct_cons in Hdis as [Hnot Hdis].
  simpl in Hu, Hdf.
  apply andb_true_iff in Hu as [Huf Hul].
  apply andb_true_iff in Hdf as [Hdff Hdfl].
  simpl. apply NoDup_app; auto.
  intros k Hk Hk'.
  apply in_flat_map in Hk' as (g & Hg & Hk').
  apply terminal_keys_under in Hk; [|assumption].
  rewrite forallb_forall in Hul, Hdfl.
  apply terminal_keys_under in Hk'; [|auto].
  assert (E : SchemaDict.key f = SchemaDict.key g).
  { eapply under_qualify_unique; eauto.
    - destruct f; simpl in *. apply andb_true_iff in Hdff. tauto.
    - specialize (Hdfl g Hg). destruct g; simpl in *.
      apply andb_true_iff in Hdfl. tauto. }
  apply Hnot. rewrite E. now apply in_map.
Qed.

Lemma terminal_keys_NoDup : forall d,
  unique_keys d = true -> dot_free d = true ->
  forall name, NoDup (terminal_keys name d).
Proof.
  induction d as [k t ty h df fs v IH] using SchemaDict_nested_ind.
  intros Hu Hdf name. simpl in *.
  assert (Hleaf : NoDup [name]) by (repeat constructor; simpl; tauto).
  destruct fs as [[|f l]|]; try exact Hleaf.
  destruct (String.eqb ty "object"); [|exact Hleaf].
  apply andb_true_iff in Hu as [Hdis Hu].
  apply andb_true_iff in Hdf as [_ Hdf].
  exact (terminal_keys_NoDup_list IH Hdis Hu Hdf (Some name)).
Qed.

(** In a schema definition whose sibling keys are distinct and have no
    separator in them, no key is listed twice in [Schema.keys]. *)
Theorem keys_NoDup :
  forall schema : list SchemaDict.t,
    schema_unique_keys schema = true ->
    schema_dot_free schema = true ->
    NoDup (Schema.keys schema).
Proof.
  intros schema Hu Hdf.
  rewrite keys_terminal_keys by assumption.
  unfold schema_unique_keys in Hu. apply andb_true_iff in Hu as [Hdis Hu].
  apply (@terminal_keys_NoDup_list schema) with (p := None); auto.
  apply Forall_forall. intros d _. apply terminal_keys_NoDup.
Qed.

Lemma keys_NoDup_witness : NoDup (Schema.keys SCHEMA).
Proof.
  apply (@keys_NoDup SCHEMA); reflexivity.
Defined.

(** ** [Settings.get] *)




(** A value that is not a [str] is returned by [get] as [get_setting]
    returns it, under every environment. *)
Theorem Settings_get_other_values :
  forall (environ : environ_t) (self : Settings.t) (key : string)
         (T : pytype) (v : pyobj),
    get_setting (Settings._settings self) key T = Returns v ->
    isinstance v Tstr = false ->
    Settings.get environ self key T = Returns v.
Proof.
  intros environ self key T v H Hv. unfold Settings.get. rewrite H.
  destruct v; try reflexivity. discriminate.
Qed.

Lemma Settings_get_other_values_witness :
  Settings.get environ_alice (Settings.mk SCHEMA (Schema.defaults SCHEMA))
    "ui.column-width" Tint
  = Returns (PInt 100).
Proof.
  apply (@Settings_get_other_values environ_alice
           (Settings.mk SCHEMA (Schema.defaults SCHEMA)) "ui.column-width"
           Tint (PInt 100)); reflexivity.
Defined.

(** A text without a dollar sign is returned by [get] as it is stored,
    under every environment. *)
Theorem Settings_get_plain_text :
  forall (environ : environ_t) (self : Settings.t) (key : string)
         (T : pytype) (text : string),
    get_setting (Settings._settings self) key T = Returns (PStr text) ->
    no_dollar text = true ->
    Settings.get environ self key T = Returns (PStr text).
Proof.
  intros environ self key T text H Hplain.
  rewrite (Settings_get_str environ self key T H).
  now rewrite expandvars_no_dollar.
Qed.

Lemma Settings_get_plain_text_witness :
  Settings.get environ_alice (Settings.mk SCHEMA (Schema.defaults SCHEMA))
    "ui.theme" Tstr
  = Returns (PStr "dracula").
Proof.
  apply (@Settings_get_plain_text environ_alice
           (Settings.mk SCHEMA (Schema.defaults SCHEMA)) "ui.theme" Tstr
           "dracula"); reflexivity.
Defined.

(** ** The cached attributes of a [Schema] *)

Lemma access_schema : forall a state,
  SchemaInstance.schema (fst (access a state))
  = SchemaInstance.schema (fst state).
Proof.
  intros [|] [[schema ks m] heap]; simpl.
  - destruct ks as [r|]; [reflexivity|]. destruct m; reflexivity.
  - destruct m; reflexivity.
Qed.

Lemma access_consistent : forall a state,
  cache_consistent (fst state) -> cache_consistent (fst (access a state)).
Proof.
  intros a [[schema ks m] heap] [Hm Hk].
  unfold cache_consistent in *. simpl in Hm, Hk.
  destruct a; simpl.
  - destruct ks as [rk|]; [simpl; split; assumption|].
    destruct m as [rm|]; simpl; split; intros r H.
    + auto.
    + injection H as <-. simpl. unfold Schema.keys.
      now rewrite (Hm rm eq_refl).
    + injection H as <-. reflexivity.
    + injection H as <-. reflexivity.
  - destruct m as [rm|]; simpl; [split; assumption|].
    split; intros r H.
    + injection H as <-. reflexivity.
    + auto.
Qed.

Lemma accesses_consistent : forall l state,
  cache_consistent (fst state) ->
  cache_consistent (fst (accesses l state))
  /\ SchemaInstance.schema (fst (accesses l state))
     = SchemaInstance.schema (fst state).
Proof.
  induction l as [|a l IH]; intros state H; simpl; [auto|].
  destruct (IH (access a state) (access_consistent a state H)) as [H1 H2].
  split; [assumption|]. rewrite H2. apply access_schema.
Qed.

(** After any sequence of accesses of [keys] and [settings_map] on a new
    [Schema], an access of [settings_map] gives the map compiled from the
    schema definition, and an access of [keys] gives its keys: the caches
    never hold anything else. *)
Theorem cached_attributes_consistent :
  forall (schema : list SchemaDict.t) (l : list attribute) (heap : nat),
    let state := accesses l (SchemaInstance.init schema, heap) in
    deref (fst (fst (SchemaInstance.settings_map (fst state) (snd state))))
    = Schema.settings_map schema
    /\ deref (fst (fst (SchemaInstance.keys (fst state) (snd state))))
       = Schema.keys schema.
Proof.
  intros schema l heap state.
  assert (H0 : cache_consistent
                 (fst (SchemaInstance.init schema, heap)))
    by (split; intros r H; discriminate).
  destruct (accesses_consistent l _ H0) as [[Hm Hk] Hs].
  fold state in Hm, Hk, Hs. simpl in Hs.
  destruct state as [[schema' ks m] heap']. simpl in *. subst schema'.
  split.
  - destruct m as [rm|]; simpl; auto.
  - destruct ks as [rk|]; simpl; auto.
    destruct m as [rm|]; simpl; auto.
    unfold Schema.keys. now rewrite (Hm rm eq_refl).
Qed.

(** Two accesses of [keys] in a row: the second returns the object of
    the first, and changes neither the instance nor the heap; after the
    first, [settings_map] is cached as well. *)
Theorem keys_memoized :
  forall (self : SchemaInstance.t) (heap : nat),
    let '(first, self1, heap1) := SchemaInstance.keys self heap in
    let '(second, self2, heap2) := SchemaInstance.keys self1 heap1 in
    second = first /\ self2 = self1 /\ heap2 = heap1
    /\ (SchemaInstance.dict_keys self = None ->
        SchemaInstance.dict_settings_map self1 <> None).
Proof.
  intros [schema [r|] [m|]] heap; simpl; repeat split; auto;
    discriminate.
Qed.

(** ** The views of a schema definition agree *)

(** In a schema definition whose keys are distinct, a top-level leaf
    that declares a default other than [None] has that default both as
    the [default] of its compiled node and as its entry in the
    defaults. *)
Theorem compiled_default_is_defaults_entry :
  forall (schema : list SchemaDict.t) (d : SchemaDict.t) (v : pyobj),
    distinct (map SchemaDict.key schema) = true ->
    In d schema ->
    String.eqb (SchemaDict.type d) "object" = false ->
    SchemaDict.default d = Some v ->
    v <> PNone ->
    exists s,
      getitem (Schema.settings_map schema) (SchemaDict.key d) = Some s
      /\ Setting.default s = v
      /\ getitem (Schema.defaults schema) (SchemaDict.key d) = Some v.
Proof.
  intros schema d v Hdis Hd Hty Hdef Hv.
  exists (Schema.build_settings (SchemaDict.key d) d). repeat split.
  - rewrite getitem_settings_map.
    now rewrite (distinct_last_with_key schema d Hdis Hd).
  - destruct d as [k t ty h df fs va]. simpl in *. subst df.
    destruct (String.eqb ty "object"); reflexivity.
  - rewrite getitem_defaults_distinct by assumption.
    unfold default_value. rewrite Hty, Hdef.
    destruct v; try reflexivity. congruence.
Qed.

Lemma compiled_default_is_defaults_entry_witness :
  exists s,
    getitem (Schema.settings_map [ui_column; ui_column_width; ui_theme])
      "column-width" = Some s
    /\ Setting.default s = PInt 100
    /\ getitem (Schema.defaults [ui_column; ui_column_width; ui_theme])
         "column-width" = Some (PInt 100).
Proof.
  apply (@compiled_default_is_defaults_entry
           [ui_column; ui_column_width; ui_theme] ui_column_width (PInt 100)).
  - reflexivity.
  - simpl. tauto.
  - reflexivity.
  - reflexivity.
  - discriminate.
Defined.

(** ** [Schema.keys] lists the leaves *)

Lemma terminal_keys_leaf : forall name d,
  String.eqb (SchemaDict.type d) "object" = false ->
  terminal_keys name d = [name].
Proof.
  intros name [k t ty h df fs v] Hty. simpl in *. rewrite Hty.
  destruct fs as [[|f l]|]; reflexivity.
Qed.

Lemma leaf_key_terminal : forall fields key,
  leaf_key fields key ->
  forall p,
    In (qualify p key)
       (flat_map (fun f => terminal_keys (qualify p (SchemaDict.key f)) f)
          fields).
Proof.
  intros fields key H.
  induction H as [schema d Hd Hty|schema o fs key Ho Hty Hfs Hleaf IH];
    intros p; apply in_flat_map.
  - exists d. split; [assumption|].
    rewrite terminal_keys_leaf by assumption. now left.
  - exists o. split; [assumption|].
    specialize (IH (Some (qualify p (SchemaDict.key o)))).
    rewrite qualify_nested in IH.
    destruct o as [k t ty h df fso v]. simpl in *. subst fso.
    rewrite Hty.
    destruct fs as [|f l]; [destruct IH|exact IH].
Qed.

(** In a schema definition whose sibling keys are distinct, the dotted
    key of every leaf, with or without a default, is listed in
    [Schema.keys]. *)
Theorem keys_list_every_leaf :
  forall (schema : list SchemaDict.t) (key : string),
    schema_unique_keys schema = true ->
    leaf_key schema key ->
    In key (Schema.keys schema).
Proof.
  intros schema key Hu Hleaf.
  rewrite keys_terminal_keys by assumption.
  exact (leaf_key_terminal Hleaf None).
Qed.

Lemma keys_list_every_leaf_witness :
  In "ui.theme" (Schema.keys SCHEMA).
Proof.
  apply (@keys_list_every_leaf SCHEMA ("ui" ++ "." ++ "theme")).
  - reflexivity.
  - apply (@leaf_key_below SCHEMA
             (group "ui" "User interface settings"
                "The following settings allow you to customize the look and feel of the User Interface."
                [ui_column; ui_column_width; ui_theme])
             [ui_column; ui_column_width; ui_theme] "theme").
    + simpl. tauto.
    + reflexivity.
    + reflexivity.
    + apply (@leaf_key_here [ui_column; ui_column_width; ui_theme] ui_theme).
      * simpl. tauto.
      * reflexivity.
Defined.

(** ** [Settings.get] when no variable is set *)

Lemma substring_string_drop : forall n s,
  (substring 0 n s ++ string_drop n s)%string = s.
Proof.
  induction n as [|n IH]; intros [|c s]; simpl; auto.
  now rewrite IH.
Qed.

Lemma expandvars_from_unset : forall environ,
  (forall name, environ name = None) ->
  forall path skip,
    expandvars_from environ skip path = string_drop skip path.
Proof.
  intros environ Hunset.
  induction path as [|c rest IH]; intros skip.
  - destruct skip; reflexivity.
  - destruct skip as [|skip]; simpl; [|apply IH].
    destruct (Ascii.eqb c "$").
    + destruct (match_var rest) as [[name len]|].
      * rewrite Hunset, IH. simpl. now rewrite substring_string_drop.
      * rewrite IH. reflexivity.
    + rewrite IH. reflexivity.
Qed.

(** Under an environment in which no variable is set, [get] returns and
    raises what [get_setting] does: every reference is kept as it is
    written. *)
Theorem Settings_get_empty_environment :
  forall (environ : environ_t) (self : Settings.t) (key : string)
         (T : pytype),
    (forall name, environ name = None) ->
    Settings.get environ self key T
    = get_setting (Settings._settings self) key T.
Proof.
  intros environ self key T Hunset. unfold Settings.get.
  destruct (get_setting (Settings._settings self) key T) as [v|e];
    [|reflexivity].
  destruct v; try reflexivity.
  unfold expandvars. now rewrite expandvars_from_unset.
Qed.

Lemma Settings_get_empty_environment_witness :
  Settings.get (fun _ => None)
    (Settings.mk SCHEMA (Schema.defaults SCHEMA)) "accounts.openai.apikey"
    Tstr
  = get_setting (Schema.defaults SCHEMA) "accounts.openai.apikey" Tstr.
Proof.
  apply (@Settings_get_empty_environment (fun _ => None)
           (Settings.mk SCHEMA (Schema.defaults SCHEMA))
           "accounts.openai.apikey" Tstr).
  reflexivity.
Defined.

(** ** The settings screen *)


Section SchemaToWidgetFacts.
Variable py_str : pyobj -> string.

Lemma setting_widgets_group : forall s children,
  String.eqb (Setting.type s) "object" = true ->
  Setting.children s = Some children ->
  setting_widgets py_str s
  = match schema_to_widget py_str children with
    | Failed e => Failed e
    | Rendered inner =>
        Rendered ((Label (Setting.title s) "title"
                   :: (if nonempty (Setting.help s)
                       then [Label (Setting.help s) "help"] else []))
                  ++ [VerticalGroup inner "container"])
    end.
Proof.
  intros [k t ty h df v c] children Hty Hc. simpl in *. subst c.
  rewrite Hty.
  assert (E : forall cs,
             (fix each (cs : dict Setting.t) : rendering :=
                match cs with
                | [] => Rendered []
                | (_, child) :: cs' =>
                    match setting_widgets py_str child with
                    | Failed e => Failed e
                    | Rendered ws =>
                        match each cs' with
                        | Failed e => Failed e
                        | Rendered ws' => Rendered (ws ++ ws')
                        end
                    end
                end) cs = schema_to_widget py_str cs).
  { induction cs as [|[k0 s0] cs IH]; simpl; [reflexivity|].
    now rewrite IH. }
  now rewrite E.
Qed.





Lemma titles_app : forall a b, titles (a ++ b) = titles a ++ titles b.
Proof.
  intros a b. unfold titles. apply flat_map_app.
Qed.

Lemma titles_labels : forall title help,
  titles (Label title "title"
          :: (if nonempty help then [Label help "help"] else []))
  = [title].
Proof.
  intros title help. destruct (nonempty help); reflexivity.
Qed.

(** One pass over a compiled descriptor yields one title label, that of
    the descriptor. *)
Lemma build_settings_title : forall name d,
  Setting.title (Schema.build_settings name d) = SchemaDict.title d.
Proof.
  intros name [k t ty h df fs v]. simpl.
  destruct (String.eqb ty "object"); reflexivity.
Qed.

Lemma setting_widgets_title : forall name d ws,
  setting_widgets py_str (Schema.build_settings name d) = Rendered ws ->
  titles ws = [SchemaDict.title d].
Proof.
  intros name d ws H.
  rewrite <- (build_settings_title name d).
  destruct (String.eqb (SchemaDict.type d) "object") eqn:Ety.
  - rewrite (@setting_widgets_group (Schema.build_settings name d)
               (build_loop (Some name) (SchemaDict.get_fields d) [])) in H.
    + destruct (schema_to_widget py_str _) as [inner|e]; [|discriminate].
      inversion H; subst.
      destruct (nonempty (Setting.help (Schema.build_settings name d)));
        reflexivity.
    + now rewrite build_settings_type.
    + rewrite build_settings_children. now rewrite Ety.
  - rewrite <- (build_settings_type name d) in Ety.
    destruct (Schema.build_settings name d) as [k t ty h df v c].
    simpl in *. rewrite Ety in H.
    destruct (String.eqb ty "string");
      [inversion H; subst; destruct (nonempty h); reflexivity|].
    destruct (String.eqb ty "boolean");
      [inversion H; subst; destruct (nonempty h); reflexivity|].
    destruct (String.eqb ty "integer");
      [inversion H; subst; destruct (nonempty h); reflexivity|].
    destruct (String.eqb ty "choices").
    + destruct (first_choices v); [discriminate|].
      inversion H; subst. destruct (nonempty h); reflexivity.
    + inversion H; subst. destruct (nonempty h); reflexivity.
Qed.

(** For a schema definition whose keys are distinct, the form that is
    made of its compiled map shows, outside the groups, one title per
    top-level descriptor, in declaration order. *)
Theorem schema_to_widget_titles :
  forall (schema : list SchemaDict.t) (ws : list Widget),
    distinct (map SchemaDict.key schema) = true ->
    schema_to_widget py_str (Schema.settings_map schema) = Rendered ws ->
    titles ws = map SchemaDict.title schema.
Proof.
  intros schema ws Hdis H. unfold Schema.settings_map in H.
  rewrite settings_map_loop_eq, build_loop_distinct in H
    by (auto; intros d _ []).
  simpl in H. clear Hdis. revert ws H.
  induction schema as [|d schema IH]; intros ws H; simpl in H.
  - inversion H. reflexivity.
  - destruct (setting_widgets py_str _) as [w1|e] eqn:E1; [|discriminate].
    destruct (schema_to_widget py_str _) as [w2|e]; [|discriminate].
    inversion H; subst. rewrite titles_app.
    rewrite (setting_widgets_title _ _ E1), (IH w2 eq_refl). reflexivity.
Qed.
End SchemaToWidgetFacts.

Lemma schema_to_widget_titles_witness :
  titles
    [ Label "Enable column?" "title";
      Label "Enable for a fixed column size. Disable to use the full screen width."
        "help";
      Checkbox;
      Label "Theme" "title";
      Label "One of the builtin Textual themes." "help";
      Select_from_values
        (PList [PStr "textual-dark"; PStr "textual-light"; PStr "nord";
                PStr "gruvbox"; PStr "catppuccin-mocha"; PStr "dracula";
                PStr "tokyo-night"; PStr "monokai"; PStr "flexoki";
                PStr "catppuccin-late"; PStr "solarized-light"]) ]
  = map SchemaDict.title [ui_column; ui_theme].
Proof.
  apply (@schema_to_widget_titles (fun _ => EmptyString)
           [ui_column; ui_theme]); reflexivity.
Defined.
